(** * gdalcubes R bindings: chunk processing, diagnostics and progress

    A shallow embedding of the concurrency core of [src/gdalcubes.cpp]:
    - [r_stderr_buf]: the buffer in front of R's [REprintf];
    - [error_handling_r]: the error handlers and their deferral flag;
    - [progress_simple_R]: the textual progress bar;
    - [chunk_processor_multithread_interruptible::apply]: the worker
      threads and the supervising loop, as an interleaving semantics
      driven by an explicit schedule.

    Integers are modelled as [Z] with the wrap-around of the C++ type
    written out, strings as [string], [std::vector]s as lists updated by
    index.  Threads interleave at the granularity of the steps defined
    below, and every read of a shared variable sees the last write to it.
    What [read_chunk] and the callback do besides returning or throwing
    is not modelled. *)

From Stdlib Require Import ZArith QArith String Ascii List Bool Lia Sorted.
From Stdlib Require Import DecimalString.
From stdpp Require Import base list sorting.

Local Open Scope Z_scope.
Local Open Scope string_scope.

(** ** Threads *)

(** [std::thread::id].  [r_main_thread_id] is the id of the thread that
    initialised the library; every thread spawned by [apply] is a
    [WorkerThread]. *)
Inductive thread_id :=
| MainThread
| WorkerThread (it : nat).

Definition is_main_thread (t : thread_id) : bool :=
  match t with MainThread => true | WorkerThread _ => false end.

(** ** Strings *)

Definition endl : string := String (ascii_of_nat 10) EmptyString.
Definition cr : string := String (ascii_of_nat 13) EmptyString.

(** [std::to_string] on an integer. *)
Definition to_string (z : Z) : string := NilZero.string_of_int (Z.to_int z).

(** [s.empty()] *)
Definition empty (s : string) : bool :=
  match s with EmptyString => true | String _ _ => false end.

(** ** The global output state

    The static members of [r_stderr_buf] and [error_handling_r], and
    the text that has reached R's console through [REprintf]. *)
Record io := mk_io {
  _s : string;            (* r_stderr_buf::_s *)
  console : string;       (* text passed to REprintf so far *)
  _err_stream : string;   (* error_handling_r::_err_stream *)
  _defer : bool;          (* error_handling_r::_defer *)
}.

Definition io_init : io :=
  {| _s := ""; console := ""; _err_stream := ""; _defer := false |}.

Module r_stderr_buf.

(** [static void print(std::string s = "")], called by thread [t].
    The body runs under [lock_guard(_m)], so it is one atomic step. *)
Definition print (t : thread_id) (s : string) (o : io) : io :=
  let buf := _s o ++ s in
  if negb (empty buf) && is_main_thread t
  then {| _s := ""; console := console o ++ buf;
          _err_stream := _err_stream o; _defer := _defer o |}
  else {| _s := buf; console := console o;
          _err_stream := _err_stream o; _defer := _defer o |}.

(** A sequence of calls of [print], each by some thread. *)
Definition prints (ws : list (thread_id * string)) (o : io) : io :=
  fold_left (fun o w => print (fst w) (snd w) o) ws o.

End r_stderr_buf.

(** The static members of [r_warn_buf], and the warnings passed to
    [Rcpp::warning] so far, oldest first.  That [Rcpp::warning] may leave
    the loop when R turns warnings into errors is not modelled. *)
Record warn_state := mk_warn_state {
  _warnings : list string;   (* r_warn_buf::_warnings *)
  issued : list string;      (* arguments of Rcpp::warning so far *)
}.

Module r_warn_buf.

(** [static void warning(std::string s = "")], called by thread [t]. *)
Definition warning (t : thread_id) (s : string) (w : warn_state) : warn_state :=
  let buf := (_warnings w ++ [s])%list in
  if negb (match buf with [] => true | _ => false end) && is_main_thread t
  then {| _warnings := []; issued := (issued w ++ buf)%list |}
  else {| _warnings := buf; issued := issued w |}.

(** A sequence of calls of [warning], each by some thread. *)
Definition warnings (ws : list (thread_id * string)) (w : warn_state) : warn_state :=
  fold_left (fun w c => warning (fst c) (snd c) w) ws w.

End r_warn_buf.

(** [enum class error_level] of the gdalcubes library; these are the
    five enumerators the handlers distinguish. *)
Inductive error_level :=
| ERRLVL_FATAL
| ERRLVL_ERROR
| ERRLVL_WARNING
| ERRLVL_INFO
| ERRLVL_DEBUG.

(** The files the handlers [standard_file] and [debug_file] write to:
    the name in [error_handling_r::_logfile], which files can be opened
    for appending, and the text of each file. *)
Record logs := mk_logs {
  _logfile : string;
  can_open : string -> bool;
  file_text : string -> string;
}.

(** [os << s] on a stream opened with [std::ios::out | std::ios::app] on
    the file [name]. *)
Definition append_file (name s : string) (l : logs) : logs :=
  {| _logfile := _logfile l;
     can_open := can_open l;
     file_text := fun n => if String.eqb n name then file_text l n ++ s
                           else file_text l n |}.

Module error_handling_r.

Definition defer_output (o : io) : io :=
  {| _s := _s o; console := console o;
     _err_stream := _err_stream o; _defer := true |}.

(** [if (_err_stream.rdbuf()->in_avail() > 0) { print(_err_stream.str());
    _err_stream.str(""); }]: nothing is ever read from the stream, so
    the characters available are the ones written since the last
    [str("")]. *)
Definition flush_err_stream (t : thread_id) (o : io) : io :=
  if negb (empty (_err_stream o))
  then let o' := r_stderr_buf.print t (_err_stream o) o in
       {| _s := _s o'; console := console o';
          _err_stream := ""; _defer := _defer o' |}
  else o.

Definition do_output (t : thread_id) (o : io) : io :=
  let o' := flush_err_stream t o in
  {| _s := _s o'; console := console o';
     _err_stream := _err_stream o'; _defer := false |}.

(** [_err_stream << s] *)
Definition put (s : string) (o : io) : io :=
  {| _s := _s o; console := console o;
     _err_stream := _err_stream o ++ s; _defer := _defer o |}.

Definition where_str (where_ : string) : string :=
  if empty where_ then "" else " [in " ++ where_ ++ "]".

(** The line [debug] writes for a message; every level has one. *)
Definition debug_line (type : error_level) (msg where_ : string) : string :=
  match type with
  | ERRLVL_ERROR | ERRLVL_FATAL => "[ERROR] " ++ msg ++ where_str where_ ++ endl
  | ERRLVL_WARNING => "[WARNING]  " ++ msg ++ where_str where_ ++ endl
  | ERRLVL_INFO => "[INFO] " ++ msg ++ where_str where_ ++ endl
  | ERRLVL_DEBUG => "[DEBUG] " ++ msg ++ where_str where_ ++ endl
  end.

(** The line [standard] writes; the chain of [if]s has no branch for
    [ERRLVL_DEBUG]. *)
Definition standard_line (type : error_level) (msg : string) : string :=
  match type with
  | ERRLVL_ERROR | ERRLVL_FATAL => "[ERROR] " ++ msg ++ endl
  | ERRLVL_WARNING => "[WARNING] " ++ msg ++ endl
  | ERRLVL_INFO => "## " ++ msg ++ endl
  | ERRLVL_DEBUG => ""
  end.

Definition debug (t : thread_id) (type : error_level) (msg where_ : string)
    (error_code : Z) (o : io) : io :=
  let o1 := put (debug_line type msg where_) o in
  if negb (_defer o1) then flush_err_stream t o1 else o1.

Definition standard (t : thread_id) (type : error_level) (msg where_ : string)
    (error_code : Z) (o : io) : io :=
  let o1 := put (standard_line type msg) o in
  if negb (_defer o1) then flush_err_stream t o1 else o1.

(** The line [standard_file] writes; no branch for [ERRLVL_DEBUG]. *)
Definition standard_file_line (type : error_level) (msg : string) : string :=
  match type with
  | ERRLVL_ERROR | ERRLVL_FATAL => "Error: " ++ msg ++ endl
  | ERRLVL_WARNING => "Warning: " ++ msg ++ endl
  | ERRLVL_INFO => "## " ++ msg ++ endl
  | ERRLVL_DEBUG => ""
  end.

(** The line [debug_file] writes. *)
Definition debug_file_line (type : error_level) (msg where_ : string) : string :=
  match type with
  | ERRLVL_ERROR | ERRLVL_FATAL => "Error  message: " ++ msg ++ where_str where_ ++ endl
  | ERRLVL_WARNING => "Warning  message: " ++ msg ++ where_str where_ ++ endl
  | ERRLVL_INFO => "Info message: " ++ msg ++ where_str where_ ++ endl
  | ERRLVL_DEBUG => "Debug message: " ++ msg ++ where_str where_ ++ endl
  end.

(** [standard_file]: if the log file cannot be opened, [standard] is
    called instead. *)
Definition standard_file (t : thread_id) (type : error_level) (msg where_ : string)
    (error_code : Z) (st : io * logs) : io * logs :=
  if negb (can_open (snd st) (_logfile (snd st)))
  then (standard t type msg where_ error_code (fst st), snd st)
  else (fst st, append_file (_logfile (snd st)) (standard_file_line type msg) (snd st)).

(** [debug_file]: if the log file cannot be opened, [debug] is called
    instead. *)
Definition debug_file (t : thread_id) (type : error_level) (msg where_ : string)
    (error_code : Z) (st : io * logs) : io * logs :=
  if negb (can_open (snd st) (_logfile (snd st)))
  then (debug t type msg where_ error_code (fst st), snd st)
  else (fst st,
        append_file (_logfile (snd st)) (debug_file_line type msg where_) (snd st)).

End error_handling_r.

(** Everything written so far and not lost, oldest text first: what the
    console shows, then what waits in [r_stderr_buf], then what waits in
    the error stream. *)
Definition all_text (o : io) : string :=
  console o ++ _s o ++ _err_stream o.

(** ** The progress bar *)

Module progress_simple_R.

(** The object state: [double _p].  A [double] is modelled by the
    rational number it denotes; the rounding of [50 * _p] and
    [p * 100.0] to the nearest [double] is not modelled. *)
Record t := mk { _p : Q }.

(** [progress_simple_R() : _p(0) {}] *)
Definition new : t := {| _p := 0%Q |}.

(** Conversion of a [double] to [int]: truncation toward zero. *)
Definition to_int (q : Q) : Z := Z.quot (Qnum q) (Z.pos (Qden q)).

(** [while (i < bound) { s << c; ++i; }] on the pair [(i, s)]. *)
Fixpoint while_lt (fuel : nat) (bound : Z) (c : string) (st : Z * string)
    : Z * string :=
  match fuel with
  | O => st
  | S fuel' =>
      if (fst st <? bound)%Z
      then while_lt fuel' bound c (fst st + 1, snd st ++ c)
      else st
  end.

(** The loop leaves after [bound - i] rounds, which is the fuel given. *)
Definition while_loop (bound : Z) (c : string) (st : Z * string) : Z * string :=
  while_lt (Z.to_nat (bound - fst st)) bound c st.

(** The contents of the stream [s] of [_set] when its second loop is
    left: the opening bracket and the bar. *)
Definition bar (p : Q) : string :=
  let s := "[" in
  let pp := to_int (50 * p) in
  let i := 0 in
  let st := while_loop pp "=" (i, s) in
  let s := snd st ++ ">" in
  let i := fst st + 1 in
  let st := while_loop 50 " " (i, s) in
  snd st.

(** The string [_set] hands to [r_stderr_buf::print]. *)
Definition render (p : Q) : string :=
  bar p ++ "] " ++ to_string (to_int (p * 100)) ++ " %" ++ cr.

(** [void _set(double p)], called by thread [th] holding [_m]. *)
Definition _set (th : thread_id) (p : Q) (st : t * io) : t * io :=
  let o := error_handling_r.defer_output (snd st) in
  let self := {| _p := p |} in
  (self, r_stderr_buf.print th (render (_p self)) o).

Definition set (th : thread_id) (p : Q) (st : t * io) : t * io :=
  _set th p st.

Definition increment (th : thread_id) (dp : Q) (st : t * io) : t * io :=
  _set th (_p (fst st) + dp)%Q st.

Definition finalize (th : thread_id) (st : t * io) : t * io :=
  let st1 := _set th 1 st in
  let o := r_stderr_buf.print th endl (snd st1) in
  (fst st1, error_handling_r.do_output th o).

End progress_simple_R.

(** ** The multithreaded, interruptible chunk processor *)

(** [uint32_t] arithmetic is modulo [2^32]. *)
Definition wrap32 (z : Z) : Z := z mod 2 ^ 32.

Module chunk_processor_multithread_interruptible.

(** What [c->read_chunk(i)] followed by [f(i, dat, mutex)] does for a
    chunk, as far as [apply] can tell: both return, or one of them
    throws, a [std::string] or something else. *)
Inductive outcome :=
| Returns
| ReadThrowsString (s : string)
| ReadThrowsOther
| CallbackThrowsString (s : string)
| CallbackThrowsOther.

(** Whether [f] is entered. *)
Definition invokes_callback (oc : outcome) : bool :=
  match oc with
  | Returns | CallbackThrowsString _ | CallbackThrowsOther => true
  | ReadThrowsString _ | ReadThrowsOther => false
  end.

(** The argument of [GCBS_ERROR] in the [catch] clause that handles the
    exception, for chunk [i]; [None] when nothing is thrown. *)
Definition caught_message (i : Z) (oc : outcome) : option string :=
  match oc with
  | Returns => None
  | ReadThrowsString s | CallbackThrowsString s => Some s
  | ReadThrowsOther | CallbackThrowsOther =>
      Some ("unexpected exception while processing chunk " ++ to_string i)
  end.

(** The signature of an error handler ([error_handling_r::standard] and
    its siblings), with the calling thread made explicit. *)
Definition error_handler : Type :=
  thread_id -> error_level -> string -> string -> Z -> io -> io.

(** What one call of [apply] works with: the object ([_nthreads], a
    [uint16_t]), the cube ([count_chunks], a [uint32_t] that does not
    change during the call, and [read_chunk]), the callback [f], and the
    handler and source location that [GCBS_ERROR] passes on. *)
Record env := mk_env {
  _nthreads : Z;
  count_chunks : Z;
  chunk_outcome : Z -> outcome;
  handler : error_handler;
  gcbs_where : string;
}.

(** Modelled from the spec: the macro [GCBS_ERROR] of the gdalcubes
    library is not part of this file; a failure "is logged to the
    DiagnosticChannel", which is done by calling the configured error
    handler at level [ERRLVL_ERROR] with error code 0. *)
Definition GCBS_ERROR (e : env) (th : thread_id) (msg : string) (o : io) : io :=
  handler e th ERRLVL_ERROR msg (gcbs_where e) 0 o.

(** Where a worker thread stands: at the test [i < c->count_chunks()] of
    its [for] loop, inside the [try] block past the test [!interrupted],
    or returned from its lambda. *)
Inductive worker_pc := AtLoopTest | InTry | Exited.

Record worker := mk_worker {
  pc : worker_pc;
  i : Z;                 (* uint32_t i *)
}.

Inductive result :=
| Normal
| Thrown (s : string).

(** Where the calling thread stands: the workers are spawned, in the
    [while (!done)] loop with its counter [int i], past the loop and
    waiting in [join], or returned.  The counter is incremented once per
    round of 100 ms and is taken not to overflow. *)
Inductive main_pc :=
| Spawned
| Polling (i : Z)
| Joining
| Returned (r : result).

(** What the workers did, for the statements of the theorems. *)
Inductive event :=
| Call (it : nat) (chunk : Z)     (* f(chunk, dat, mutex) entered by worker it *)
| Skip (it : nat) (chunk : Z).    (* worker it took the else branch for chunk *)

Record state := mk_state {
  interrupted : bool;
  finished : list bool;
  interrupted_bythread : list bool;
  workers : list worker;
  main : main_pc;
  out : io;
  trace : list event;    (* most recent event first *)
}.

Definition sleep_ms : Z := 100.
Definition interrupt_ms : Z := 2000.
Definition interrupt_every : Z := wrap32 (interrupt_ms / sleep_ms).

(** [for (uint16_t it = 0; it < _nthreads; ++it) workers.push_back(...)]:
    the [n] threads from index [it] on, each with [i = it]. *)
Fixpoint spawn (n : nat) (it : Z) : list worker :=
  match n with
  | O => []
  | S n' => {| pc := AtLoopTest; i := it |} :: spawn n' (it + 1)
  end.

Definition init (e : env) (o : io) : state :=
  {| interrupted := false;
     finished := replicate (Z.to_nat (_nthreads e)) false;
     interrupted_bythread := replicate (Z.to_nat (_nthreads e)) false;
     workers := spawn (Z.to_nat (_nthreads e)) 0;
     main := Spawned;
     out := o;
     trace := [] |}.

(** [i += _nthreads] *)
Definition next_i (e : env) (i : Z) : Z := wrap32 (i + _nthreads e).

(** The loop [for (uint32_t i = k; i < c->count_chunks(); i += _nthreads)]
    on its own: the values of [i] with which the body is entered. *)
Inductive in_loop (e : env) (k : Z) : Z -> Prop :=
| in_loop_first : (k < count_chunks e)%Z -> in_loop e k k
| in_loop_next (i : Z) :
    in_loop e k i -> (next_i e i < count_chunks e)%Z -> in_loop e k (next_i e i).

(** One step of worker [it].  At the loop test it either leaves the
    loop, or reads [interrupted] and enters the [try] block or takes
    the [else] branch; inside the [try] block it reads the chunk,
    calls [f], handles what is thrown, and increments [i]. *)
Definition worker_step (e : env) (it : nat) (st : state) : state :=
  match workers st !! it with
  | None => st
  | Some w =>
      match pc w with
      | AtLoopTest =>
          if (i w <? count_chunks e)%Z then
            if negb (interrupted st) then
              {| interrupted := interrupted st;
                 finished := finished st;
                 interrupted_bythread := interrupted_bythread st;
                 workers := <[it := {| pc := InTry; i := i w |}]> (workers st);
                 main := main st; out := out st; trace := trace st |}
            else
              {| interrupted := interrupted st;
                 finished := finished st;
                 interrupted_bythread := <[it := true]> (interrupted_bythread st);
                 workers := <[it := {| pc := AtLoopTest; i := next_i e (i w) |}]>
                              (workers st);
                 main := main st; out := out st;
                 trace := Skip it (i w) :: trace st |}
          else
            {| interrupted := interrupted st;
               finished := <[it := true]> (finished st);
               interrupted_bythread := interrupted_bythread st;
               workers := <[it := {| pc := Exited; i := i w |}]> (workers st);
               main := main st; out := out st; trace := trace st |}
      | InTry =>
          let oc := chunk_outcome e (i w) in
          {| interrupted := interrupted st;
             finished := finished st;
             interrupted_bythread := interrupted_bythread st;
             workers := <[it := {| pc := AtLoopTest; i := next_i e (i w) |}]>
                          (workers st);
             main := main st;
             out := match caught_message (i w) oc with
                    | Some msg => GCBS_ERROR e (WorkerThread it) msg (out st)
                    | None => out st
                    end;
             trace := if invokes_callback oc
                      then Call it (i w) :: trace st else trace st |}
      | Exited => st
      end
  end.

Definition all_exited (st : state) : bool :=
  forallb (fun w => match pc w with Exited => true | _ => false end) (workers st).

Definition interrupted_message : string :=
  "computations have been interrupted by the user".

(** The end of [apply]: the loop over [interrupted_bythread] and the
    [throw]. *)
Definition verdict (st : state) : result :=
  let any_incomplete := existsb (fun b : bool => b) (interrupted_bythread st) in
  if interrupted st && any_incomplete
  then Thrown interrupted_message
  else Normal.

Definition set_main (m : main_pc) (o : io) (st : state) : state :=
  {| interrupted := interrupted st;
     finished := finished st;
     interrupted_bythread := interrupted_bythread st;
     workers := workers st;
     main := m; out := o; trace := trace st |}.

(** One step of the calling thread.  [user_interrupt] tells whether
    [Rcpp::checkUserInterrupt()] throws, should this step call it.  One
    round of the [while] loop is one step; [join] returns once every
    worker has returned. *)
Definition main_step (e : env) (user_interrupt : bool) (st : state) : state :=
  match main st with
  | Spawned => set_main (Polling 0) (r_stderr_buf.print MainThread "" (out st)) st
  | Polling i =>
      let done := forallb (fun b : bool => b) (finished st) in
      if done then
        set_main Joining (r_stderr_buf.print MainThread "" (out st)) st
      else if (interrupt_every <=? i)%Z && (i mod interrupt_every =? 0)%Z
              && user_interrupt then
        {| interrupted := true;
           finished := finished st;
           interrupted_bythread := interrupted_bythread st;
           workers := workers st;
           main := Joining; out := out st; trace := trace st |}
      else
        set_main (Polling (i + 1)) (r_stderr_buf.print MainThread "" (out st)) st
  | Joining =>
      if all_exited st then
        set_main (Returned (verdict st))
                 (r_stderr_buf.print MainThread "" (out st)) st
      else st
  | Returned _ => st
  end.

(** Who moves next. *)
Inductive actor :=
| Worker (it : nat)
| Main (user_interrupt : bool).

Definition step (e : env) (a : actor) (st : state) : state :=
  match a with
  | Worker it => worker_step e it st
  | Main u => main_step e u st
  end.

Definition run (e : env) (sched : list actor) (st : state) : state :=
  fold_left (fun st a => step e a st) sched st.

(** [apply] from its first statement, under a schedule. *)
Definition apply (e : env) (sched : list actor) (o : io) : state :=
  run e sched (init e o).

(** The chunks for which worker [it] entered [f], oldest first. *)
Definition calls_of (it : nat) (st : state) : list Z :=
  rev (omap (fun ev => match ev with
                       | Call it' c => if Nat.eqb it it' then Some c else None
                       | Skip _ _ => None
                       end) (trace st)).

(** The chunks for which [f] was entered, by any worker. *)
Definition calls (st : state) : list Z :=
  rev (omap (fun ev => match ev with
                       | Call _ c => Some c
                       | Skip _ _ => None
                       end) (trace st)).

(** Whether worker [it] took the [else] branch at least once. *)
Definition has_skip (it : nat) (tr : list event) : bool :=
  existsb (fun ev => match ev with
                     | Skip it' _ => Nat.eqb it it'
                     | Call _ _ => false
                     end) tr.



(** What holds of every state that [apply] reaches. *)
Record inv (st : state) : Prop := mk_inv {
  inv_len_finished : length (finished st) = length (workers st);
  inv_len_bythread : length (interrupted_bythread st) = length (workers st);
  inv_finished : forall it,
    finished st !! it = Some true <->
    exists w, workers st !! it = Some w /\ pc w = Exited;
  inv_bythread : forall it,
    interrupted_bythread st !! it = Some true <-> has_skip it (trace st) = true;
  inv_skip_flag : forall it,
    has_skip it (trace st) = true -> interrupted st = true;
  inv_skip_pc : forall it w,
    workers st !! it = Some w -> has_skip it (trace st) = true -> pc w <> InTry;
  inv_returned : forall r,
    main st = Returned r ->
    (forall it w, workers st !! it = Some w -> pc w = Exited) /\ r = verdict st;
  inv_i_range : forall it w,
    workers st !! it = Some w -> (0 <= i w)%Z;
}.


(** The loop counters stay below [2^32]: no addition [i += _nthreads]
    wraps around. *)
Definition no_wrap (e : env) : Prop :=
  (1 <= _nthreads e)%Z /\ (0 <= count_chunks e)%Z
  /\ (count_chunks e + _nthreads e <= 2 ^ 32)%Z.

(** What holds of every state that [apply] reaches when no counter
    wraps around. *)
Record inv_no_wrap (e : env) (st : state) : Prop := mk_inv_no_wrap {
  nw_len : length (workers st) = Z.to_nat (_nthreads e);
  nw_counter : forall it w,
    workers st !! it = Some w ->
    (Z.of_nat it <= i w)%Z
    /\ (_nthreads e | i w - Z.of_nat it)%Z
    /\ (i w < count_chunks e + _nthreads e)%Z
    /\ (pc w = InTry -> (i w < count_chunks e)%Z)
    /\ (pc w = Exited -> (count_chunks e <= i w)%Z);
  nw_calls : forall it c,
    In (Call it c) (trace st) ->
    exists w, workers st !! it = Some w
              /\ (Z.of_nat it <= c < i w)%Z
              /\ (_nthreads e | c - Z.of_nat it)%Z
              /\ (c < count_chunks e)%Z;
  nw_nodup : NoDup (calls st);
  nw_sorted : forall it, StronglySorted Z.lt (calls_of it st);
  nw_cover :
    interrupted st = false ->
    forall it w c,
      workers st !! it = Some w ->
      (Z.of_nat it <= c < i w)%Z ->
      (_nthreads e | c - Z.of_nat it)%Z ->
      invokes_callback (chunk_outcome e c) = true ->
      In (Call it c) (trace st);
}.

(** What a step of a worker does to the worker's own record, given the
    value of the flag. *)
Definition local_step (e : env) (flag : bool) (w : worker) : worker :=
  match pc w with
  | AtLoopTest =>
      if (i w <? count_chunks e)%Z then
        if negb flag then {| pc := InTry; i := i w |}
        else {| pc := AtLoopTest; i := next_i e (i w) |}
      else {| pc := Exited; i := i w |}
  | InTry => {| pc := AtLoopTest; i := next_i e (i w) |}
  | Exited => w
  end.



(** A schedule in which only workers move. *)
Definition only_workers (sched : list actor) : Prop :=
  forall a, In a sched -> exists it, a = Worker it.

End chunk_processor_multithread_interruptible.

Module cp := chunk_processor_multithread_interruptible.

(** ** Auxiliary definitions for the statements *)

(** [n] copies of [c], one after the other. *)
Fixpoint repeat_string (c : string) (n : nat) : string :=
  match n with
  | O => ""
  | S n' => c ++ repeat_string c n'
  end.

(** The strings of a list, one after the other. *)
Definition join (l : list string) : string := fold_right append "" l.


(** A call of an error handler: who calls, and the arguments. *)
Record message := mk_message {
  m_thread : thread_id;
  m_type : error_level;
  m_msg : string;
  m_where : string;
  m_code : Z;
}.

(** The handler [h] called for each message of a list in turn. *)
Definition handle_all (h : cp.error_handler) (ms : list message) (o : io) : io :=
  fold_left (fun o m => h (m_thread m) (m_type m) (m_msg m) (m_where m) (m_code m) o)
            ms o.

Definition is_debug (ty : error_level) : bool :=
  match ty with ERRLVL_DEBUG => true | _ => false end.

(** The frame of the progress bar at 100 %. *)
Definition frame_100 : string :=
  "[==================================================>] 100 %" ++ cr.

(** ** The settings *)

(** The four handlers that [gc_set_err_handler] can install. *)
Inductive handler_choice :=
| UseStandard
| UseDebug
| UseStandardFile
| UseDebugFile.

(** [gc_set_err_handler(debug, log_to_file)]: the handler passed to
    [config::set_error_handler], and the files with [_logfile] set when a
    name is given. *)
Definition gc_set_err_handler (debug : bool) (log_to_file : string) (l : logs)
    : handler_choice * logs :=
  if empty log_to_file then
    (if debug then UseDebug else UseStandard, l)
  else
    let l' := {| _logfile := log_to_file; can_open := can_open l;
                 file_text := file_text l |} in
    (if debug then UseDebugFile else UseStandardFile, l').

(** A call of the installed handler. *)
Definition call_handler (h : handler_choice) (m : message) (st : io * logs)
    : io * logs :=
  match h with
  | UseStandard =>
      (error_handling_r.standard (m_thread m) (m_type m) (m_msg m) (m_where m)
         (m_code m) (fst st), snd st)
  | UseDebug =>
      (error_handling_r.debug (m_thread m) (m_type m) (m_msg m) (m_where m)
         (m_code m) (fst st), snd st)
  | UseStandardFile =>
      error_handling_r.standard_file (m_thread m) (m_type m) (m_msg m) (m_where m)
        (m_code m) st
  | UseDebugFile =>
      error_handling_r.debug_file (m_thread m) (m_type m) (m_msg m) (m_where m)
        (m_code m) st
  end.

Definition call_handler_all (h : handler_choice) (ms : list message)
    (st : io * logs) : io * logs :=
  fold_left (fun st m => call_handler h m st) ms st.

(** [gc_set_threads(n)]: the number of threads of the processor that is
    installed; the [int] [n[0]] is converted to the [uint16_t] parameter
    of the constructor. *)
Definition gc_set_threads (n : Z) : Z := n mod 2 ^ 16.

(** ** Calls in sequence *)

(** A call that touches the output state. *)
Inductive io_op :=
| OpPrint (t : thread_id) (s : string)
| OpDefer
| OpDoOutput (t : thread_id)
| OpDebug (m : message)
| OpStandard (m : message)
| OpSet (t : thread_id) (p : Q)
| OpIncrement (t : thread_id) (dp : Q)
| OpFinalize (t : thread_id).

Definition exec_op (op : io_op) (st : progress_simple_R.t * io)
    : progress_simple_R.t * io :=
  match op with
  | OpPrint t s => (fst st, r_stderr_buf.print t s (snd st))
  | OpDefer => (fst st, error_handling_r.defer_output (snd st))
  | OpDoOutput t => (fst st, error_handling_r.do_output t (snd st))
  | OpDebug m =>
      (fst st, error_handling_r.debug (m_thread m) (m_type m) (m_msg m)
                 (m_where m) (m_code m) (snd st))
  | OpStandard m =>
      (fst st, error_handling_r.standard (m_thread m) (m_type m) (m_msg m)
                 (m_where m) (m_code m) (snd st))
  | OpSet t p => progress_simple_R.set t p st
  | OpIncrement t dp => progress_simple_R.increment t dp st
  | OpFinalize t => progress_simple_R.finalize t st
  end.

Definition exec_ops (ops : list io_op) (st : progress_simple_R.t * io)
    : progress_simple_R.t * io :=
  fold_left (fun st op => exec_op op st) ops st.

(** Whether a call goes through the handlers and their switches only,
    and the line it writes. *)
Definition is_handler_op (op : io_op) : bool :=
  match op with
  | OpDefer | OpDoOutput _ | OpDebug _ | OpStandard _ => true
  | _ => false
  end.

Definition line_of (op : io_op) : string :=
  match op with
  | OpDebug m => error_handling_r.debug_line (m_type m) (m_msg m) (m_where m)
  | OpStandard m => error_handling_r.standard_line (m_type m) (m_msg m)
  | _ => ""
  end.

(** The chunks in the trace exist, [f] was entered only where the
    chunk could be read, and the workers in the trace exist. *)
Definition ids_valid (e : cp.env) (st : cp.state) : Prop :=
  (forall it w, cp.workers st !! it = Some w -> cp.pc w = cp.InTry ->
                (cp.i w < cp.count_chunks e)%Z)
  /\ (forall it c, In (cp.Call it c) (cp.trace st) ->
        (0 <= c < cp.count_chunks e)%Z
        /\ cp.invokes_callback (cp.chunk_outcome e c) = true
        /\ (it < length (cp.workers st))%nat)
  /\ (forall it c, In (cp.Skip it c) (cp.trace st) ->
        (0 <= c < cp.count_chunks e)%Z /\ (it < length (cp.workers st))%nat).

(** Where the main thread stands after [k] of its steps, and that the
    flag is not set before the step that follows round 20 of its loop. *)
Definition main_clock (k : nat) (st : cp.state) : Prop :=
  match cp.main st with
  | cp.Spawned => k = 0%nat
  | cp.Polling i => i = (Z.of_nat k - 1)%Z
  | _ => True
  end
  /\ (cp.interrupted st = true -> (22 <= k)%nat).

(** A run without workers after [k] steps of the main thread. *)
Definition no_threads_clock (k : nat) (st : cp.state) : Prop :=
  cp.workers st = [] /\ cp.finished st = [] /\ cp.interrupted_bythread st = []
  /\ cp.interrupted st = false /\ cp.trace st = []
  /\ cp.main st = match k with
                  | 0%nat => cp.Spawned
                  | 1%nat => cp.Polling 0
                  | 2%nat => cp.Joining
                  | _ => cp.Returned cp.Normal
                  end.

(** One chunk-processing thread, as [gc_init] installs it, and three
    chunks. *)
Definition env_single : cp.env :=
  {| cp._nthreads := 1; cp.count_chunks := 3;
     cp.chunk_outcome := fun _ => cp.Returns;
     cp.handler := error_handling_r.standard; cp.gcbs_where := "" |}.


(** No thread: what [gc_set_threads(65536)] installs. *)
Definition env_no_threads : cp.env :=
  {| cp._nthreads := gc_set_threads 65536; cp.count_chunks := 10;
     cp.chunk_outcome := fun _ => cp.Returns;
     cp.handler := error_handling_r.standard; cp.gcbs_where := "" |}.

(** The number of steps of the main thread in a schedule. *)
Definition main_steps (sched : list cp.actor) : nat :=
  length (List.filter (fun a => match a with cp.Main _ => true | _ => false end)
                      sched).

(** ** Scenarios *)

(** The log file of the start, [gdalcubes.log], empty, in a directory
    where every file can be opened, or none. *)
Definition logs_open : logs :=
  {| _logfile := "gdalcubes.log"; can_open := fun _ => true;
     file_text := fun _ => "" |}.

Definition logs_closed : logs :=
  {| _logfile := "gdalcubes.log"; can_open := fun _ => false;
     file_text := fun _ => "" |}.

Definition two_messages : list message :=
  [mk_message (WorkerThread 0) ERRLVL_ERROR "a" "f" 0;
   mk_message MainThread ERRLVL_DEBUG "b" "" 0].

(** Ten chunks, three workers, every actor in turn. *)
Definition env_10_3 : cp.env :=
  {| cp._nthreads := 3; cp.count_chunks := 10;
     cp.chunk_outcome := fun _ => cp.Returns;
     cp.handler := error_handling_r.standard; cp.gcbs_where := "" |}.

Definition sched_round_robin (rounds : nat) : list cp.actor :=
  concat (replicate rounds
            [cp.Worker 0; cp.Worker 1; cp.Worker 2; cp.Main false]).



(** Five chunks, two workers; the interrupt arrives before any worker
    has run. *)
Definition env_early : cp.env :=
  {| cp._nthreads := 2; cp.count_chunks := 5;
     cp.chunk_outcome := fun _ => cp.Returns;
     cp.handler := error_handling_r.standard; cp.gcbs_where := "" |}.

Definition sched_early : list cp.actor :=
  replicate 21 (cp.Main false) ++ [cp.Main true].


(** Two chunks, one worker; for chunk 0 the callback throws a
    [std::string]. *)
Definition env_boom : cp.env :=
  {| cp._nthreads := 1; cp.count_chunks := 2;
     cp.chunk_outcome := fun c => if (c =? 0)%Z then cp.CallbackThrowsString "boom"
                                  else cp.Returns;
     cp.handler := error_handling_r.standard; cp.gcbs_where := "" |}.

(** As many chunks as a [uint32_t] can count and as many workers as a
    [uint16_t] can count; every chunk is read and processed without a
    failure. *)
Definition env_wrap : cp.env :=
  {| cp._nthreads := 65535; cp.count_chunks := 4294967295;
     cp.chunk_outcome := fun _ => cp.Returns;
     cp.handler := error_handling_r.standard; cp.gcbs_where := "" |}.

(** Whether the decimal numeral of [c] occurs in a text. *)
Definition mentions (c : Z) (text : string) : bool :=
  match index 0 (to_string c) text with
  | Some _ => true
  | None => false
  end.

(** * Properties *)

(** ** Strings *)

Lemma append_assoc (a b c : string) : (a ++ b) ++ c = a ++ b ++ c.
Proof. induction a as [|x a IH]; simpl; [reflexivity | now rewrite IH]. Qed.

Lemma append_nil_r (a : string) : a ++ "" = a.
Proof. induction a as [|x a IH]; simpl; [reflexivity | now rewrite IH]. Qed.


Lemma empty_true (a : string) : empty a = true <-> a = "".
Proof. destruct a; simpl; split; congruence. Qed.

Lemma empty_append (a b : string) : empty (a ++ b) = empty a && empty b.
Proof. destruct a; reflexivity. Qed.


Lemma repeat_string_snoc (c : string) (n : nat) :
  repeat_string c n ++ c = c ++ repeat_string c n.
Proof.
  induction n as [|n IH]; simpl.
  - now rewrite append_nil_r.
  - now rewrite append_assoc, IH.
Qed.

Lemma join_app (l1 l2 : list string) : join (l1 ++ l2) = join l1 ++ join l2.
Proof.
  induction l1 as [|x l1 IH]; simpl; [reflexivity|].
  now rewrite IH, append_assoc.
Qed.

(** ** [r_stderr_buf::print] *)

Lemma print_worker (it : nat) (s : string) (o : io) :
  r_stderr_buf.print (WorkerThread it) s o =
  {| _s := _s o ++ s; console := console o;
     _err_stream := _err_stream o; _defer := _defer o |}.
Proof. unfold r_stderr_buf.print. simpl. now rewrite andb_false_r. Qed.

Lemma print_main (s : string) (o : io) :
  r_stderr_buf.print MainThread s o =
  {| _s := ""; console := console o ++ _s o ++ s;
     _err_stream := _err_stream o; _defer := _defer o |}.
Proof.
  unfold r_stderr_buf.print. simpl. rewrite andb_true_r.
  destruct (empty (_s o ++ s)) eqn:E; simpl; [|reflexivity].
  apply empty_true in E. rewrite E, append_nil_r. reflexivity.
Qed.

(** [print] moves text from the buffer to the console and never
    reorders it. *)
Lemma print_stream (t : thread_id) (s : string) (o : io) :
  console (r_stderr_buf.print t s o) ++ _s (r_stderr_buf.print t s o)
  = console o ++ _s o ++ s.
Proof.
  destruct t.
  - rewrite print_main. simpl. now rewrite append_nil_r.
  - rewrite print_worker. reflexivity.
Qed.

Lemma print_keeps (t : thread_id) (s : string) (o : io) :
  _err_stream (r_stderr_buf.print t s o) = _err_stream o
  /\ _defer (r_stderr_buf.print t s o) = _defer o.
Proof. unfold r_stderr_buf.print. now destruct (_ && _). Qed.

Lemma prints_stream (ws : list (thread_id * string)) (o : io) :
  console (r_stderr_buf.prints ws o) ++ _s (r_stderr_buf.prints ws o)
  = console o ++ _s o ++ join (map snd ws).
Proof.
  revert o. induction ws as [|[t s] ws IH]; intros o; simpl.
  - now rewrite append_nil_r.
  - unfold r_stderr_buf.prints in *. simpl. rewrite IH.
    rewrite <- !append_assoc. rewrite print_stream.
    now rewrite !append_assoc.
Qed.

Lemma prints_app (ws1 ws2 : list (thread_id * string)) (o : io) :
  r_stderr_buf.prints (ws1 ++ ws2) o
  = r_stderr_buf.prints ws2 (r_stderr_buf.prints ws1 o).
Proof. unfold r_stderr_buf.prints. apply fold_left_app. Qed.

(** ** The error handlers *)

Lemma flush_err_stream_text (t : thread_id) (o : io) :
  all_text (error_handling_r.flush_err_stream t o) = all_text o.
Proof.
  unfold error_handling_r.flush_err_stream, all_text.
  destruct (empty (_err_stream o)); simpl; [reflexivity|].
  rewrite append_nil_r, <- append_assoc, print_stream.
  now rewrite !append_assoc.
Qed.

Lemma flush_err_stream_worker (it : nat) (o : io) :
  console (error_handling_r.flush_err_stream (WorkerThread it) o) = console o.
Proof.
  unfold error_handling_r.flush_err_stream.
  destruct (empty (_err_stream o)); simpl; [reflexivity|].
  now rewrite print_worker.
Qed.

Lemma put_text (s : string) (o : io) :
  all_text (error_handling_r.put s o) = all_text o ++ s.
Proof. unfold all_text. simpl. now rewrite !append_assoc. Qed.

Lemma debug_text (t : thread_id) (ty : error_level) (msg w : string) (c : Z) (o : io) :
  all_text (error_handling_r.debug t ty msg w c o)
  = all_text o ++ error_handling_r.debug_line ty msg w.
Proof.
  unfold error_handling_r.debug.
  destruct (negb _); [rewrite flush_err_stream_text|]; apply put_text.
Qed.

Lemma standard_text (t : thread_id) (ty : error_level) (msg w : string) (c : Z) (o : io) :
  all_text (error_handling_r.standard t ty msg w c o)
  = all_text o ++ error_handling_r.standard_line ty msg.
Proof.
  unfold error_handling_r.standard.
  destruct (negb _); [rewrite flush_err_stream_text|]; apply put_text.
Qed.

Lemma debug_line_not_empty (ty : error_level) (msg w : string) :
  empty (error_handling_r.debug_line ty msg w) = false.
Proof. destruct ty; reflexivity. Qed.

Lemma handle_all_debug_text (ms : list message) (o : io) :
  all_text (handle_all error_handling_r.debug ms o)
  = all_text o
    ++ join (map (fun m => error_handling_r.debug_line (m_type m) (m_msg m) (m_where m))
                 ms).
Proof.
  revert o. induction ms as [|m ms IH]; intros o; simpl.
  - now rewrite append_nil_r.
  - unfold handle_all in *. simpl. rewrite IH, debug_text.
    now rewrite append_assoc.
Qed.

(** C7.  Only the main thread emits.  A [print] by a worker thread only
    appends its argument to the buffer [_s] and leaves the console as it
    is; a [print] by the main thread puts the whole buffer and then its
    own argument on the console and empties the buffer.  Hence after any
    sequence of [print]s by any threads the console followed by the
    buffer is the arguments in the order of the calls, and one more
    [print] by the main thread has all of it on the console.  The same
    holds for messages passed to the handler [debug]: a call by a worker
    thread leaves the console as it is, after any sequence of calls by
    any threads the lines are in the order of the calls, and a call by
    the main thread, when output is not deferred, puts everything that
    waits on the console. *)
Theorem emission_by_main_thread_in_arrival_order :
  (forall it s o,
      console (r_stderr_buf.print (WorkerThread it) s o) = console o
      /\ _s (r_stderr_buf.print (WorkerThread it) s o) = _s o ++ s)
  /\ (forall s o,
      console (r_stderr_buf.print MainThread s o) = console o ++ _s o ++ s
      /\ _s (r_stderr_buf.print MainThread s o) = "")
  /\ (forall ws o,
      console (r_stderr_buf.prints ws o) ++ _s (r_stderr_buf.prints ws o)
      = console o ++ _s o ++ join (map snd ws))
  /\ (forall ws s o,
      console (r_stderr_buf.prints (ws ++ [(MainThread, s)]) o)
      = console o ++ _s o ++ join (map snd ws) ++ s)
  /\ (forall it ty msg w c o,
      console (error_handling_r.debug (WorkerThread it) ty msg w c o) = console o)
  /\ (forall ms o,
      all_text (handle_all error_handling_r.debug ms o)
      = all_text o
        ++ join (map (fun m => error_handling_r.debug_line
                                 (m_type m) (m_msg m) (m_where m)) ms))
  /\ (forall ty msg w c o,
      console (error_handling_r.debug MainThread ty msg w c o)
      = if _defer o then console o
        else console o ++ _s o ++ _err_stream o
             ++ error_handling_r.debug_line ty msg w).
Proof.
  repeat split.
  - now rewrite print_worker.
  - now rewrite print_worker.
  - now rewrite print_main.
  - now rewrite print_main.
  - apply prints_stream.
  - intros ws s o. rewrite prints_app.
    unfold r_stderr_buf.prints at 1. simpl. rewrite print_main. simpl.
    rewrite <- !append_assoc. rewrite prints_stream.
    now rewrite !append_assoc.
  - intros it ty msg w c o. unfold error_handling_r.debug.
    destruct (negb _); [now rewrite flush_err_stream_worker|reflexivity].
  - intros. apply handle_all_debug_text.
  - intros ty msg w c o. unfold error_handling_r.debug. simpl.
    destruct (_defer o); simpl; [reflexivity|].
    unfold error_handling_r.flush_err_stream. simpl.
    rewrite empty_append, debug_line_not_empty, andb_false_r. simpl.
    now rewrite print_main.
Qed.

Lemma handle_all_standard_text (ms : list message) (o : io) :
  all_text (handle_all error_handling_r.standard ms o)
  = all_text o
    ++ join (map (fun m => error_handling_r.standard_line (m_type m) (m_msg m)) ms).
Proof.
  revert o. induction ms as [|m ms IH]; intros o; simpl.
  - now rewrite append_nil_r.
  - unfold handle_all in *. simpl. rewrite IH, standard_text.
    now rewrite append_assoc.
Qed.

Lemma join_standard_line_filter (ms : list message) :
  join (map (fun m => error_handling_r.standard_line (m_type m) (m_msg m)) ms)
  = join (map (fun m => error_handling_r.standard_line (m_type m) (m_msg m))
              (List.filter (fun m => negb (is_debug (m_type m))) ms)).
Proof.
  induction ms as [|m ms IH]; simpl; [reflexivity|].
  destruct (m_type m) eqn:E; simpl; rewrite ?E; simpl; now rewrite IH.
Qed.

(** C10.  The handler [standard] has no branch for [ERRLVL_DEBUG]: called
    with a message of that level it leaves [_err_stream] as it would be
    without the call (it only flushes what waits there, unless output is
    deferred), so the text written so far stays the same, and after any
    sequence of calls the text consists of the lines of the messages
    whose level is not [ERRLVL_DEBUG].  The handler [debug] writes the
    line "[DEBUG] msg [in where]" for such a message. *)
Theorem standard_discards_debug_messages :
  (forall t msg w c o,
      error_handling_r.standard t ERRLVL_DEBUG msg w c o
      = if _defer o then o else error_handling_r.flush_err_stream t o)
  /\ (forall t msg w c o,
      all_text (error_handling_r.standard t ERRLVL_DEBUG msg w c o) = all_text o)
  /\ (forall ms o,
      all_text (handle_all error_handling_r.standard ms o)
      = all_text o
        ++ join (map (fun m => error_handling_r.standard_line (m_type m) (m_msg m))
                     (List.filter (fun m => negb (is_debug (m_type m))) ms)))
  /\ (forall t msg w c o,
      all_text (error_handling_r.debug t ERRLVL_DEBUG msg w c o)
      = all_text o ++ "[DEBUG] " ++ msg ++ error_handling_r.where_str w ++ endl).
Proof.
  assert (Hput : forall o, error_handling_r.put "" o = o).
  { intros [b k es d]. unfold error_handling_r.put. simpl.
    now rewrite append_nil_r. }
  repeat split.
  - intros t msg w c o. unfold error_handling_r.standard. simpl.
    rewrite Hput. now destruct (_defer o).
  - intros. rewrite standard_text. simpl. apply append_nil_r.
  - intros. rewrite handle_all_standard_text.
    now rewrite join_standard_line_filter.
  - intros. now rewrite debug_text.
Qed.

(** ** The progress bar *)

Lemma render_1 : progress_simple_R.render 1 = frame_100.
Proof. reflexivity. Qed.

(** C6.  [finalize] stores 1 in [_p], prints the frame for 100 %, then a
    line break, then hands the whole of [_err_stream] to [print], empties
    it and clears [_defer], whatever [_defer] was before.  Called by the
    main thread, all of this and what waited in the buffer is on the
    console afterwards; called by another thread, it waits in the buffer
    in the same order. *)
Theorem finalize_full_frame_and_flush :
  (forall self o,
      progress_simple_R.finalize MainThread (self, o)
      = ({| progress_simple_R._p := 1 |},
         {| _s := "";
            console := console o ++ _s o ++ frame_100 ++ endl ++ _err_stream o;
            _err_stream := ""; _defer := false |}))
  /\ (forall it self o,
      progress_simple_R.finalize (WorkerThread it) (self, o)
      = ({| progress_simple_R._p := 1 |},
         {| _s := _s o ++ frame_100 ++ endl ++ _err_stream o;
            console := console o;
            _err_stream := ""; _defer := false |}))
  /\ (forall t self o,
      progress_simple_R.finalize t (self, error_handling_r.defer_output o)
      = progress_simple_R.finalize t (self, o)).
Proof.
  repeat split.
  - intros self o. unfold progress_simple_R.finalize, progress_simple_R._set.
    cbn [fst snd progress_simple_R._p]. rewrite render_1, !print_main.
    unfold error_handling_r.do_output, error_handling_r.flush_err_stream.
    cbn [_s console _err_stream _defer error_handling_r.defer_output].
    destruct (empty (_err_stream o)) eqn:E; cbn [negb].
    + apply empty_true in E. rewrite E. cbn [_s console _err_stream _defer].
      now rewrite !append_assoc, append_nil_r.
    + rewrite print_main. cbn [_s console _err_stream _defer].
      now rewrite !append_assoc.
  - intros it self o. unfold progress_simple_R.finalize, progress_simple_R._set.
    cbn [fst snd progress_simple_R._p]. rewrite render_1, !print_worker.
    unfold error_handling_r.do_output, error_handling_r.flush_err_stream.
    cbn [_s console _err_stream _defer error_handling_r.defer_output].
    destruct (empty (_err_stream o)) eqn:E; cbn [negb].
    + apply empty_true in E. rewrite E. cbn [_s console _err_stream _defer].
      now rewrite !append_assoc, append_nil_r.
    + rewrite print_worker. cbn [_s console _err_stream _defer].
      now rewrite !append_assoc.
Qed.









(** ** The chunk processor: invariants *)

Import chunk_processor_multithread_interruptible.

(** Case analysis on a step of worker [it], following [worker_step]. *)
Ltac worker_cases e it st w Hw :=
  unfold worker_step;
  destruct (workers st !! it) as [w|] eqn:Hw; [|];
  [ let Hpc := fresh "Hpc" in
    destruct (pc w) eqn:Hpc;
    [ let Hlt := fresh "Hlt" in
      destruct (Z.ltb_spec (i w) (count_chunks e)) as [Hlt|Hlt];
      [ let Hint := fresh "Hint" in
        destruct (interrupted st) eqn:Hint; cbn [negb] | ]
    | | ]
  | ].

Lemma all_exited_spec (st : state) :
  all_exited st = true <->
  forall it w, workers st !! it = Some w -> pc w = Exited.
Proof.
  unfold all_exited. rewrite forallb_forall. split.
  - intros H it w Hw.
    assert (Hin : In w (workers st)).
    { apply list_elem_of_In. eapply list_elem_of_lookup_2; eauto. }
    specialize (H w Hin). now destruct (pc w).
  - intros H w Hin. apply list_elem_of_In, list_elem_of_lookup in Hin.
    destruct Hin as [it Hit]. now rewrite (H it w Hit).
Qed.


Lemma has_skip_In (it : nat) (tr : list event) :
  has_skip it tr = true <-> exists c, In (Skip it c) tr.
Proof.
  unfold has_skip. rewrite existsb_exists. split.
  - intros [[it' c|it' c] [Hin H]]; [discriminate|].
    apply Nat.eqb_eq in H. subst. eauto.
  - intros [c Hin]. exists (Skip it c). split; [exact Hin|]. apply Nat.eqb_refl.
Qed.

Lemma spawn_length (n : nat) (k : Z) : length (spawn n k) = n.
Proof. revert k. induction n as [|n IH]; intros k; simpl; [reflexivity|now rewrite IH]. Qed.

Lemma spawn_lookup (n : nat) (k : Z) (it : nat) (w : worker) :
  spawn n k !! it = Some w -> w = {| pc := AtLoopTest; i := k + Z.of_nat it |}.
Proof.
  revert k it. induction n as [|n IH]; intros k it; simpl; [discriminate|].
  destruct it as [|it]; simpl.
  - intros [= <-]. f_equal. lia.
  - intros H. apply IH in H. rewrite H. f_equal. lia.
Qed.

Lemma inv_init (e : env) (o : io) : inv (init e o).
Proof.
  constructor; simpl.
  - now rewrite length_replicate, spawn_length.
  - now rewrite length_replicate, spawn_length.
  - intros it. split.
    + intros H. apply lookup_replicate in H. destruct H as [H _]. discriminate.
    + intros [w [Hw Hpc]]. apply spawn_lookup in Hw. subst w. discriminate.
  - intros it. split; [|discriminate].
    intros H. apply lookup_replicate in H. destruct H as [H _]. discriminate.
  - discriminate.
  - discriminate.
  - discriminate.
  - intros it w Hw. apply spawn_lookup in Hw. subst w. simpl. lia.
Qed.

Lemma lookup_insert_Some_eq {A} (l : list A) (k j : nat) (x y : A) :
  <[k := x]> l !! j = Some y ->
  (j = k /\ x = y /\ (k < length l)%nat) \/ (j <> k /\ l !! j = Some y).
Proof.
  intros H. destruct (decide (j = k)) as [->|Hne].
  - left. assert (Hlt : (k < length l)%nat).
    { apply lookup_lt_Some in H. now rewrite length_insert in H. }
    rewrite list_lookup_insert_eq in H by exact Hlt.
    injection H as ->. auto.
  - right. rewrite list_lookup_insert_ne in H by congruence. auto.
Qed.

Lemma inv_worker_step (e : env) (it : nat) (st : state) :
  inv st -> inv (worker_step e it st).
Proof.
  intros I. destruct I as [Ilf Ilb Ifin Iby Iflag Ipc Iret Irg].
  assert (Hrg : forall it' w' k w,
                  <[it := {| pc := k; i := next_i e (i w') |}]> (workers st) !! it'
                  = Some w -> (0 <= i w)%Z).
  { intros it' w' k w Hw'. apply lookup_insert_Some_eq in Hw'.
    destruct Hw' as [[_ [<- _]]|[_ Hw']]; [|eauto].
    cbn [i]. unfold next_i, wrap32. apply Z.mod_pos_bound. lia. }
  assert (Hrg' : forall it' w' k w, workers st !! it = Some w' ->
                   <[it := {| pc := k; i := i w' |}]> (workers st) !! it' = Some w ->
                   (0 <= i w)%Z).
  { intros it' w' k w Hw0 Hw'. apply lookup_insert_Some_eq in Hw'.
    destruct Hw' as [[_ [<- _]]|[_ Hw']]; cbn [i]; eauto. }
  assert (Hnotret : forall w r, workers st !! it = Some w -> pc w <> Exited ->
                                main st <> Returned r).
  { intros w r Hw Hne Hr. apply Iret in Hr. destruct Hr as [Hr _].
    apply Hne. eapply Hr; eauto. }
  worker_cases e it st w Hw.
  - (* takes the else branch *)
    assert (Hlt' : (it < length (workers st))%nat) by (eapply lookup_lt_Some; eauto).
    constructor; cbn [finished interrupted_bythread workers trace interrupted main].
    + now rewrite length_insert.
    + now rewrite !length_insert.
    + intros it'. rewrite Ifin. split; intros [w' [Hw' Hpc']].
      * destruct (decide (it' = it)) as [->|Hne]; [congruence|].
        exists w'. rewrite list_lookup_insert_ne by congruence. auto.
      * apply lookup_insert_Some_eq in Hw'.
        destruct Hw' as [[-> [<- _]]|[Hne Hw']]; [discriminate|eauto].
    + intros it'. cbn [has_skip existsb].
      destruct (decide (it' = it)) as [->|Hne].
      * rewrite list_lookup_insert_eq by lia. rewrite Nat.eqb_refl. tauto.
      * rewrite list_lookup_insert_ne by congruence.
        replace (Nat.eqb it' it) with false
          by (symmetry; apply Nat.eqb_neq; congruence).
        cbn [orb]. apply Iby.
    + reflexivity.
    + intros it' w' Hw' Hs. apply lookup_insert_Some_eq in Hw'.
      destruct Hw' as [[-> [<- _]]|[Hne Hw']]; [discriminate|].
      cbn [has_skip existsb] in Hs.
      replace (Nat.eqb it' it) with false in Hs
        by (symmetry; apply Nat.eqb_neq; congruence).
      eapply Ipc; eauto.
    + intros r Hr. exfalso. eapply Hnotret; eauto. congruence.
    + eauto.
  - (* enters the try block *)
    constructor; cbn [finished interrupted_bythread workers trace interrupted main].
    + now rewrite length_insert.
    + now rewrite length_insert.
    + intros it'. rewrite Ifin. split; intros [w' [Hw' Hpc']].
      * destruct (decide (it' = it)) as [->|Hne]; [congruence|].
        exists w'. rewrite list_lookup_insert_ne by congruence. auto.
      * apply lookup_insert_Some_eq in Hw'.
        destruct Hw' as [[-> [<- _]]|[Hne Hw']]; [discriminate|eauto].
    + exact Iby.
    + intros it' H. apply Iflag in H. congruence.
    + intros it' w' Hw' Hs. apply Iflag in Hs. congruence.
    + intros r Hr. exfalso. eapply Hnotret; eauto. congruence.
    + eauto.
  - (* leaves the loop *)
    assert (Hlt' : (it < length (workers st))%nat) by (eapply lookup_lt_Some; eauto).
    constructor; cbn [finished interrupted_bythread workers trace interrupted main].
    + now rewrite !length_insert.
    + now rewrite length_insert.
    + intros it'. destruct (decide (it' = it)) as [->|Hne].
      * rewrite !list_lookup_insert_eq by lia. split; eauto.
      * rewrite !list_lookup_insert_ne by congruence. apply Ifin.
    + exact Iby.
    + exact Iflag.
    + intros it' w' Hw' Hs. apply lookup_insert_Some_eq in Hw'.
      destruct Hw' as [[-> [<- _]]|[Hne Hw']]; [discriminate|eauto].
    + intros r Hr. exfalso. eapply Hnotret; eauto. congruence.
    + eauto.
  - (* processes the chunk *)
    assert (Hns : has_skip it (trace st) = false).
    { destruct (has_skip it (trace st)) eqn:Hs; [|reflexivity].
      exfalso. eapply Ipc; eauto. }
    assert (Htr : forall it',
      has_skip it' (if invokes_callback (chunk_outcome e (i w))
                    then Call it (i w) :: trace st else trace st)
      = has_skip it' (trace st)).
    { intros it'. now destruct (invokes_callback _). }
    constructor; cbn [finished interrupted_bythread workers trace interrupted main].
    + now rewrite length_insert.
    + now rewrite length_insert.
    + intros it'. rewrite Ifin. split; intros [w' [Hw' Hpc']].
      * destruct (decide (it' = it)) as [->|Hne]; [congruence|].
        exists w'. rewrite list_lookup_insert_ne by congruence. auto.
      * apply lookup_insert_Some_eq in Hw'.
        destruct Hw' as [[-> [<- _]]|[Hne Hw']]; [discriminate|eauto].
    + intros it'. rewrite Htr. apply Iby.
    + intros it'. rewrite Htr. apply Iflag.
    + intros it' w' Hw'. rewrite Htr. intros Hs. apply lookup_insert_Some_eq in Hw'.
      destruct Hw' as [[-> [<- _]]|[Hne Hw']]; [discriminate|eauto].
    + intros r Hr. exfalso. eapply Hnotret; eauto. congruence.
    + eauto.
  - constructor; assumption.
  - constructor; assumption.
Qed.

Lemma inv_main_step (e : env) (u : bool) (st : state) :
  inv st -> inv (main_step e u st).
Proof.
  intros I. pose proof I as [Ilf Ilb Ifin Iby Iflag Ipc Iret Irg].
  unfold main_step. destruct (main st) as [|k| |r] eqn:Hm.
  - constructor; try assumption. discriminate.
  - destruct (forallb _ _).
    + constructor; try assumption. discriminate.
    + destruct (_ && _).
      * constructor; cbn [finished interrupted_bythread workers trace interrupted main];
          try assumption; [reflexivity|discriminate].
      * constructor; try assumption. discriminate.
  - destruct (all_exited st) eqn:Hall; [|exact I].
    constructor; try assumption.
    cbn [main set_main]. intros r [= <-]. split.
    + now apply all_exited_spec.
    + reflexivity.
  - exact I.
Qed.

Lemma inv_step (e : env) (a : actor) (st : state) : inv st -> inv (step e a st).
Proof. destruct a; [apply inv_worker_step | apply inv_main_step]. Qed.

Lemma inv_run (e : env) (sched : list actor) (st : state) :
  inv st -> inv (run e sched st).
Proof.
  revert st. induction sched as [|a sched IH]; intros st I; [exact I|].
  apply IH, inv_step, I.
Qed.

Lemma run_cons (e : env) (a : actor) (sched : list actor) (st : state) :
  run e (a :: sched) st = run e sched (step e a st).
Proof. reflexivity. Qed.

Lemma run_app (e : env) (s1 s2 : list actor) (st : state) :
  run e (s1 ++ s2) st = run e s2 (run e s1 st).
Proof. apply fold_left_app. Qed.

Lemma inv_apply (e : env) (sched : list actor) (o : io) : inv (cp.apply e sched o).
Proof. apply inv_run, inv_init. Qed.

(** ** The chunk processor: a run *)

Example apply_10_3 :
  let st := cp.apply env_10_3 (sched_round_robin 10) io_init in
  main st = Returned Normal
  /\ calls_of 0 st = [0; 3; 6; 9]%Z
  /\ calls_of 1 st = [1; 4; 7]%Z
  /\ calls_of 2 st = [2; 5; 8]%Z
  /\ calls st = [0; 1; 2; 3; 4; 5; 6; 7; 8; 9]%Z.
Proof. repeat split. Qed.

(** ** The chunk processor: interruption *)



Lemma calls_of_cons_skip (it it' : nat) (c : Z) (st st' : state) :
  trace st' = Skip it' c :: trace st -> calls_of it st' = calls_of it st.
Proof. unfold calls_of. now intros ->. Qed.

Lemma calls_of_cons_call (it it' : nat) (c : Z) (st st' : state) :
  trace st' = Call it' c :: trace st ->
  calls_of it st' = if Nat.eqb it it' then (calls_of it st ++ [c])%list else calls_of it st.
Proof.
  unfold calls_of. intros ->. simpl. now destruct (Nat.eqb it it').
Qed.

Lemma calls_of_same_trace (it : nat) (st st' : state) :
  trace st' = trace st -> calls_of it st' = calls_of it st.
Proof. unfold calls_of. now intros ->. Qed.

Lemma main_step_trace (e : env) (u : bool) (st : state) :
  trace (main_step e u st) = trace st
  /\ workers (main_step e u st) = workers st.
Proof.
  unfold main_step. destruct (main st); try (split; reflexivity).
  - destruct (forallb _ _); [split; reflexivity|].
    destruct (_ && _); split; reflexivity.
  - destruct (all_exited st); split; reflexivity.
Qed.

Lemma main_step_interrupted (e : env) (u : bool) (st : state) :
  interrupted st = true -> interrupted (main_step e u st) = true.
Proof.
  intros H. unfold main_step. destruct (main st); try exact H.
  - destruct (forallb _ _); [exact H|]. destruct (_ && _); [reflexivity|exact H].
  - destruct (all_exited st); exact H.
Qed.






(** ** The chunk processor: failures of single chunks *)

(** C5, as the code has it.  When [read_chunk] or [f] throws for the
    chunk [i] of worker [it], the worker calls the error handler once, at
    level [ERRLVL_ERROR]: with the string that was thrown, if a
    [std::string] was thrown, and with "unexpected exception while
    processing chunk i" otherwise.  [apply] goes on: the main thread and
    the flag are as before, the worker is back at the head of its loop
    with [i + _nthreads], and if that chunk exists, the flag is not set
    and the chunk can be read, its next two steps enter [f] for it. *)
Theorem chunk_failure_logged_worker_continues
    (e : env) (o : io) (sched : list actor) (it : nat) (w : worker) (msg : string) :
  (0 <= _nthreads e)%Z -> (count_chunks e < 2 ^ 32)%Z ->
  workers (cp.apply e sched o) !! it = Some w -> pc w = InTry ->
  caught_message (i w) (chunk_outcome e (i w)) = Some msg ->
  let st := cp.apply e sched o in
  let st' := worker_step e it st in
  out st' = handler e (WorkerThread it) ERRLVL_ERROR msg (gcbs_where e) 0 (out st)
  /\ (forall s, chunk_outcome e (i w) = ReadThrowsString s
                \/ chunk_outcome e (i w) = CallbackThrowsString s -> msg = s)
  /\ (chunk_outcome e (i w) = ReadThrowsOther
      \/ chunk_outcome e (i w) = CallbackThrowsOther ->
      msg = "unexpected exception while processing chunk " ++ to_string (i w))
  /\ (handler e = error_handling_r.standard ->
      all_text (out st') = all_text (out st) ++ "[ERROR] " ++ msg ++ endl)
  /\ main st' = main st
  /\ interrupted st' = interrupted st
  /\ workers st' !! it = Some {| pc := AtLoopTest; i := next_i e (i w) |}
  /\ ((i w + _nthreads e < count_chunks e)%Z ->
      interrupted st = false ->
      invokes_callback (chunk_outcome e (i w + _nthreads e)) = true ->
      trace (run e [Worker it; Worker it] st')
      = Call it (i w + _nthreads e) :: trace st').
Proof.
  intros HN HC Hw Hpc Hmsg st st'.
  pose proof (inv_apply e sched o) as I. fold st in I, Hw.
  assert (Hi : (0 <= i w)%Z) by (eapply (inv_i_range _ I); eauto).
  assert (Hlt : (it < length (workers st))%nat) by (eapply lookup_lt_Some; eauto).
  assert (Hst' : st' =
    {| interrupted := interrupted st; finished := finished st;
       interrupted_bythread := interrupted_bythread st;
       workers := <[it := {| pc := AtLoopTest; i := next_i e (i w) |}]> (workers st);
       main := main st;
       out := GCBS_ERROR e (WorkerThread it) msg (out st);
       trace := if invokes_callback (chunk_outcome e (i w))
                then Call it (i w) :: trace st else trace st |}).
  { unfold st', worker_step. rewrite Hw, Hpc, Hmsg. reflexivity. }
  assert (Hw' : workers st' !! it = Some {| pc := AtLoopTest; i := next_i e (i w) |}).
  { rewrite Hst'. cbn [workers]. now apply list_lookup_insert_eq. }
  repeat split.
  - now rewrite Hst'.
  - intros s [Hs|Hs]; rewrite Hs in Hmsg; simpl in Hmsg; congruence.
  - intros [Hs|Hs]; rewrite Hs in Hmsg; cbn [caught_message] in Hmsg; congruence.
  - intros Hh. rewrite Hst'. cbn [out]. unfold GCBS_ERROR. rewrite Hh.
    now rewrite standard_text.
  - now rewrite Hst'.
  - now rewrite Hst'.
  - exact Hw'.
  - intros Hnext Hint Hcb.
    assert (Hn : next_i e (i w) = (i w + _nthreads e)%Z).
    { unfold next_i, wrap32. apply Z.mod_small. lia. }
    rewrite Hn in Hw'.
    assert (Hint' : interrupted st' = false) by (now rewrite Hst').
    cbn [run fold_left step].
    unfold worker_step at 2. rewrite Hw'. cbn [pc i].
    destruct (Z.ltb_spec (i w + _nthreads e) (count_chunks e)) as [_|]; [|lia].
    rewrite Hint'. cbn [negb].
    unfold worker_step. cbn [workers].
    rewrite list_lookup_insert_eq
      by (apply lookup_lt_Some in Hw'; exact Hw').
    cbn [pc i trace]. now rewrite Hcb.
Qed.

Lemma chunk_failure_logged_worker_continues_witness :
  all_text (out (cp.apply env_boom [Worker 0; Worker 0] io_init))
  = "[ERROR] boom" ++ endl
  /\ trace (cp.apply env_boom (replicate 4 (Worker 0)) io_init)
     = [Call 0 1; Call 0 0].
Proof.
  assert (HN : (0 <= _nthreads env_boom)%Z) by (simpl; lia).
  assert (HC : (count_chunks env_boom < 2 ^ 32)%Z) by (simpl; lia).
  pose proof (chunk_failure_logged_worker_continues env_boom io_init [Worker 0]
                0%nat {| pc := InTry; i := 0 |} "boom" HN HC eq_refl eq_refl eq_refl)
    as H.
  cbv zeta in H.
  destruct H as [_ [_ [_ [Htext [_ [_ [_ Hnext]]]]]]].
  split.
  - exact (Htext eq_refl).
  - refine (Hnext _ eq_refl eq_refl). simpl. lia.
Defined.

(** C5 as it is worded does not hold: the line written for a chunk whose
    callback throws a [std::string] is that string, with the tag of the
    level, and need not mention the chunk. *)
Lemma string_exception_line_without_chunk_id :
  chunk_outcome env_boom 0 = CallbackThrowsString "boom"
  /\ all_text (out (cp.apply env_boom [Worker 0; Worker 0] io_init))
     = "[ERROR] boom" ++ endl
  /\ mentions 0 (all_text (out (cp.apply env_boom [Worker 0; Worker 0] io_init)))
     = false
  /\ main (cp.apply env_boom (replicate 5 (Worker 0) ++ replicate 3 (Main false))
                    io_init) = Returned Normal
  /\ console (out (cp.apply env_boom
                     (replicate 5 (Worker 0) ++ replicate 3 (Main false)) io_init))
     = "[ERROR] boom" ++ endl.
Proof. repeat split. Qed.

(** ** The loop of a worker *)

Lemma next_i_no_wrap (e : env) (k : Z) :
  (0 <= k)%Z -> (0 <= _nthreads e)%Z -> (k + _nthreads e < 2 ^ 32)%Z ->
  next_i e k = (k + _nthreads e)%Z.
Proof. intros. unfold next_i, wrap32. apply Z.mod_small. lia. Qed.

Lemma in_loop_lt (e : env) (k c : Z) : in_loop e k c -> (c < count_chunks e)%Z.
Proof. now intros [|]. Qed.

(** Below the first wrap-around the loop visits [k], [k + _nthreads],
    [k + 2 * _nthreads], ... *)
Lemma in_loop_arith (e : env) (k j : Z) :
  (0 <= k)%Z -> (0 <= _nthreads e)%Z -> (count_chunks e <= 2 ^ 32)%Z ->
  (0 <= j)%Z -> (k + j * _nthreads e < count_chunks e)%Z ->
  in_loop e k (k + j * _nthreads e).
Proof.
  intros Hk HN HC Hj. revert j Hj.
  apply (natlike_ind (fun j => (k + j * _nthreads e < count_chunks e)%Z ->
                               in_loop e k (k + j * _nthreads e))).
  - intros H. rewrite Z.mul_0_l, Z.add_0_r in *. now constructor.
  - intros j Hj IH H.
    assert (Hprev : (k + j * _nthreads e < count_chunks e)%Z) by nia.
    specialize (IH Hprev).
    replace (k + Z.succ j * _nthreads e)%Z with (next_i e (k + j * _nthreads e)).
    + apply in_loop_next; [exact IH|]. rewrite next_i_no_wrap by nia. nia.
    + rewrite next_i_no_wrap by nia. nia.
Qed.

(** With 4294967295 chunks and 65535 workers the counter of worker 1
    reaches 4294901761, and the next addition wraps around to 0. *)
Lemma env_wrap_loop :
  in_loop env_wrap 1 4294901761
  /\ next_i env_wrap 4294901761 = 0%Z
  /\ in_loop env_wrap 1 0.
Proof.
  assert (H1 : in_loop env_wrap 1 4294901761).
  { change 4294901761%Z with (1 + 65536 * _nthreads env_wrap)%Z.
    apply in_loop_arith; simpl; lia. }
  split; [exact H1|]. split; [reflexivity|].
  change (in_loop env_wrap 1 (next_i env_wrap 4294901761)).
  apply in_loop_next; [exact H1|]. reflexivity.
Qed.

(** C1 at the largest inputs.  With 4294967295 chunks and 65535
    workers, numbers that a [uint32_t] and a [uint16_t] hold, the
    counter of worker 1 reaches 4294901761 and the addition of 65535
    wraps around to 0, which is less than the number of chunks: the loop
    of worker 1 goes on with chunk 0, the first chunk of worker 0. *)
Theorem chunk_in_two_partitions_after_wrap :
  (1 <= _nthreads env_wrap < 2 ^ 16)%Z
  /\ (0 <= count_chunks env_wrap < 2 ^ 32)%Z
  /\ in_loop env_wrap 0 0
  /\ in_loop env_wrap 1 4294901761
  /\ next_i env_wrap 4294901761 = 0%Z
  /\ in_loop env_wrap 1 0.
Proof.
  split; [simpl; lia|]. split; [simpl; lia|].
  split; [constructor; simpl; lia|].
  exact env_wrap_loop.
Qed.

(** ** The loop of a worker inside [apply] *)

(** Two steps of a worker that is at the head of its loop with a chunk
    left and the flag not set: it processes the chunk. *)
Lemma worker_two_steps (e : env) (it : nat) (st : state) (k : Z) :
  workers st !! it = Some {| pc := AtLoopTest; i := k |} ->
  (k < count_chunks e)%Z -> interrupted st = false ->
  run e [Worker it; Worker it] st =
  {| interrupted := false;
     finished := finished st;
     interrupted_bythread := interrupted_bythread st;
     workers := <[it := {| pc := AtLoopTest; i := next_i e k |}]> (workers st);
     main := main st;
     out := match caught_message k (chunk_outcome e k) with
            | Some msg => GCBS_ERROR e (WorkerThread it) msg (out st)
            | None => out st
            end;
     trace := if invokes_callback (chunk_outcome e k)
              then Call it k :: trace st else trace st |}.
Proof.
  intros Hw Hlt Hint.
  assert (Hit : (it < length (workers st))%nat) by (eapply lookup_lt_Some; eauto).
  cbn [run fold_left step].
  unfold worker_step at 2. rewrite Hw. cbn [pc i].
  destruct (Z.ltb_spec k (count_chunks e)) as [_|]; [|lia].
  rewrite Hint. cbn [negb].
  unfold worker_step. cbn [workers].
  rewrite list_lookup_insert_eq by exact Hit.
  cbn [pc i interrupted finished interrupted_bythread main out trace].
  now rewrite list_insert_insert_eq.
Qed.

Lemma replicate_add_2 {A} (n : nat) (x : A) :
  replicate (n + 2) x = (replicate n x ++ [x; x])%list.
Proof.
  induction n as [|n IH]; simpl; [reflexivity|]. now rewrite IH.
Qed.

(** Every value of the loop on its own is taken by the worker in some
    run of [apply] in which only this worker moves; what is in the trace
    stays there. *)
Lemma in_loop_reached (e : env) (it : nat) (st : state) (k c : Z) :
  workers st !! it = Some {| pc := AtLoopTest; i := k |} ->
  interrupted st = false ->
  in_loop e k c ->
  exists n tr,
    workers (run e (replicate n (Worker it)) st) !! it
    = Some {| pc := AtLoopTest; i := c |}
    /\ interrupted (run e (replicate n (Worker it)) st) = false
    /\ trace (run e (replicate n (Worker it)) st) = (tr ++ trace st)%list.
Proof.
  intros Hw Hint Hloop. induction Hloop as [Hlt|c Hloop IH Hnext].
  - exists 0%nat, []. auto.
  - destruct IH as [n [tr [Hw' [Hint' Htr]]]].
    pose proof (in_loop_lt _ _ _ Hloop) as Hlt.
    pose proof (worker_two_steps e it _ c Hw' Hlt Hint') as H2.
    exists (n + 2)%nat.
    exists (if invokes_callback (chunk_outcome e c) then Call it c :: tr else tr).
    rewrite replicate_add_2, run_app, H2.
    cbn [workers interrupted trace]. split; [|split].
    + apply list_lookup_insert_eq. eapply lookup_lt_Some; eauto.
    + reflexivity.
    + rewrite Htr. now destruct (invokes_callback _).
Qed.

Lemma step_trace_grows (e : env) (a : actor) (st : state) (ev : event) :
  In ev (trace st) -> In ev (trace (step e a st)).
Proof.
  intros Hin. destruct a as [it|u]; cbn [step].
  - worker_cases e it st w Hw; cbn [trace]; try assumption.
    + now right.
    + destruct (invokes_callback _); [now right|assumption].
  - now rewrite (proj1 (main_step_trace e u st)).
Qed.

Lemma run_trace_grows (e : env) (sched : list actor) (st : state) (ev : event) :
  In ev (trace st) -> In ev (trace (run e sched st)).
Proof.
  revert st. induction sched as [|a sched IH]; intros st Hin; [exact Hin|].
  apply IH, step_trace_grows, Hin.
Qed.

Lemma init_worker (e : env) (o : io) (it : nat) :
  (it < Z.to_nat (_nthreads e))%nat ->
  workers (init e o) !! it = Some {| pc := AtLoopTest; i := Z.of_nat it |}.
Proof.
  intros Hit. cbn [init workers].
  destruct (spawn (Z.to_nat (_nthreads e)) 0 !! it) as [w|] eqn:Hw.
  - apply spawn_lookup in Hw. now subst w.
  - apply lookup_ge_None in Hw. rewrite spawn_length in Hw. lia.
Qed.

Lemma worker_step_others (e : env) (it it' : nat) (st : state) :
  it' <> it -> workers (worker_step e it st) !! it' = workers st !! it'.
Proof.
  intros Hne. worker_cases e it st w Hw; cbn [workers];
    rewrite ?list_lookup_insert_ne by congruence; reflexivity.
Qed.

Lemma run_worker_others (e : env) (it it' : nat) (n : nat) (st : state) :
  it' <> it ->
  workers (run e (replicate n (Worker it)) st) !! it' = workers st !! it'.
Proof.
  intros Hne. revert st. induction n as [|n IH]; intros st; [reflexivity|].
  cbn [replicate]. rewrite run_cons, IH. cbn [step].
  now apply worker_step_others.
Qed.

(** C3 at the largest inputs.  With 4294967295 chunks and 65535 workers,
    no failing chunk and the flag not set, there is a beginning of a run
    of [apply] after which, however the run goes on, [f] has been entered
    for chunk 0 by worker 0 and again by worker 1. *)
Theorem callback_twice_after_wrap :
  exists s1,
    interrupted (cp.apply env_wrap s1 io_init) = false
    /\ forall s2,
        In (Call 0 0) (trace (cp.apply env_wrap (s1 ++ s2) io_init))
        /\ In (Call 1 0) (trace (cp.apply env_wrap (s1 ++ s2) io_init)).
Proof.
  destruct env_wrap_loop as [_ [_ Hloop]].
  pose (st0 := run env_wrap [Worker 0; Worker 0] (init env_wrap io_init)).
  assert (Hst0 : st0 = run env_wrap [Worker 0; Worker 0] (init env_wrap io_init))
    by reflexivity.
  rewrite (worker_two_steps env_wrap 0 _ 0) in Hst0;
    [|apply (init_worker env_wrap io_init 0); simpl; lia|simpl; lia|reflexivity].
  assert (Hw1 : workers st0 !! 1%nat = Some {| pc := AtLoopTest; i := 1 |}).
  { rewrite Hst0. cbn [workers]. rewrite list_lookup_insert_ne by lia.
    apply (init_worker env_wrap io_init 1). simpl. lia. }
  assert (Hi0 : interrupted st0 = false) by (now rewrite Hst0).
  destruct (in_loop_reached env_wrap 1 st0 1 0 Hw1 Hi0 Hloop)
    as [n [tr [Hw [Hint Htr]]]].
  exists ([Worker 0; Worker 0] ++ replicate n (Worker 1) ++ [Worker 1; Worker 1])%list.
  unfold cp.apply. rewrite !run_app. fold st0.
  rewrite (worker_two_steps env_wrap 1 _ 0 Hw);
    [|simpl; lia|exact Hint].
  split; [reflexivity|].
  intros s2. rewrite !run_app. fold st0.
  rewrite (worker_two_steps env_wrap 1 _ 0 Hw) by (simpl; lia || exact Hint).
  split; apply run_trace_grows; cbn [trace env_wrap chunk_outcome invokes_callback].
  - right. rewrite Htr. apply in_or_app. right. rewrite Hst0. now left.
  - now left.
Qed.

(** C8 at the largest inputs.  With 4294967295 chunks and 65535 workers
    there is a run of [apply], the flag not set, in which worker 1 enters
    [f] for chunk 4294901761 and next for chunk 0. *)
Theorem calls_decrease_after_wrap :
  exists sched l,
    interrupted (cp.apply env_wrap sched io_init) = false
    /\ calls_of 1 (cp.apply env_wrap sched io_init)
       = (l ++ [4294901761; 0])%list.
Proof.
  destruct env_wrap_loop as [Hloop [Hnext _]].
  assert (Hw1 : workers (init env_wrap io_init) !! 1%nat
                = Some {| pc := AtLoopTest; i := 1 |}).
  { apply (init_worker env_wrap io_init 1). simpl. lia. }
  destruct (in_loop_reached env_wrap 1 _ 1 _ Hw1 eq_refl Hloop)
    as [n [tr [Hw [Hint Htr]]]].
  set (stc := run env_wrap (replicate n (Worker 1)) (init env_wrap io_init)) in *.
  pose proof (worker_two_steps env_wrap 1 stc _ Hw ltac:(simpl; lia) Hint) as H2.
  set (st2 := run env_wrap [Worker 1; Worker 1] stc) in *.
  assert (Hw2 : workers st2 !! 1%nat = Some {| pc := AtLoopTest; i := 0 |}).
  { rewrite H2. cbn [workers]. rewrite Hnext.
    apply list_lookup_insert_eq. eapply lookup_lt_Some; eauto. }
  assert (Hint2 : interrupted st2 = false) by (now rewrite H2).
  pose proof (worker_two_steps env_wrap 1 st2 _ Hw2 ltac:(simpl; lia) Hint2) as H4.
  exists (replicate n (Worker 1) ++ [Worker 1; Worker 1] ++ [Worker 1; Worker 1])%list.
  exists (calls_of 1 stc).
  unfold cp.apply. rewrite !run_app. fold stc. fold st2.
  split; [now rewrite H4|].
  assert (Ht4 : trace (run env_wrap [Worker 1; Worker 1] st2) = Call 1 0 :: trace st2)
    by (now rewrite H4).
  assert (Ht2 : trace st2 = Call 1 4294901761 :: trace stc) by (now rewrite H2).
  rewrite (calls_of_cons_call 1 1 0 st2 _ Ht4).
  rewrite (calls_of_cons_call 1 1 4294901761 stc _ Ht2).
  cbn [Nat.eqb]. now rewrite <- app_assoc.
Qed.

(** ** The chunk processor when no counter wraps around *)

Lemma calls_cons_call (it : nat) (c : Z) (st st' : state) :
  trace st' = Call it c :: trace st -> calls st' = (calls st ++ [c])%list.
Proof. unfold calls. intros ->. reflexivity. Qed.

Lemma calls_same (st st' : state) :
  trace st' = trace st \/ (exists it c, trace st' = Skip it c :: trace st) ->
  calls st' = calls st.
Proof. unfold calls. intros [->|[it [c ->]]]; reflexivity. Qed.

Lemma calls_In (c : Z) (st : state) :
  In c (calls st) <-> exists it, In (Call it c) (trace st).
Proof.
  unfold calls. rewrite <- in_rev. induction (trace st) as [|ev tr IH]; simpl.
  - split; [tauto|intros [_ []]].
  - destruct ev as [it' c'|it' c']; simpl.
    + rewrite IH. split.
      * intros [<-|[it H]]; eauto.
      * intros [it [[= _ <-]|H]]; eauto.
    + rewrite IH. split.
      * intros [it H]; eauto.
      * intros [it [H|H]]; [discriminate|eauto].
Qed.

Lemma calls_of_In (it : nat) (c : Z) (st : state) :
  In c (calls_of it st) <-> In (Call it c) (trace st).
Proof.
  unfold calls_of. rewrite <- in_rev. induction (trace st) as [|ev tr IH]; simpl.
  - tauto.
  - destruct ev as [it' c'|it' c']; simpl.
    + destruct (Nat.eqb_spec it it') as [<-|Hne]; simpl; rewrite IH.
      * split; [intros [<-|H]; auto|intros [[= <-]|H]; auto].
      * split; [auto|intros [[= <- _]|H]; [congruence|auto]].
    + rewrite IH. split; [auto|intros [H|H]; [discriminate|auto]].
Qed.

Lemma StronglySorted_snoc_lt (l : list Z) (c : Z) :
  StronglySorted Z.lt l -> (forall x, In x l -> (x < c)%Z) ->
  StronglySorted Z.lt (l ++ [c]).
Proof.
  induction 1 as [|x l Hl IH Hx]; intros Hc; simpl.
  - repeat constructor.
  - constructor.
    + apply IH. intros y Hy. apply Hc. now right.
    + apply Forall_app. split; [exact Hx|]. constructor; [|constructor].
      apply Hc. now left.
Qed.

Lemma divide_between (n a : Z) :
  (1 <= n)%Z -> (n | a)%Z -> (0 < a)%Z -> (n <= a)%Z.
Proof.
  intros Hn [q ->] Ha.
  assert (1 <= q)%Z by (destruct (Z_le_gt_dec q 0); nia).
  nia.
Qed.

Lemma divide_small (n a : Z) :
  (n | a)%Z -> (- n < a < n)%Z -> a = 0%Z.
Proof.
  intros [q ->] Ha.
  destruct (Z_le_gt_dec q 0) as [H|H]; [destruct (Z.eq_dec q 0) as [->|Hq]|];
    [reflexivity|nia|nia].
Qed.

Section NoWrap.

Variable e : env.
Hypothesis Hnw : no_wrap e.

Lemma inv_no_wrap_init (o : io) : inv_no_wrap e (init e o).
Proof using Hnw.
  destruct Hnw as [HN [HC HW]].
  constructor; cbn [init workers trace interrupted].
  - apply spawn_length.
  - intros it w Hw. pose proof (lookup_lt_Some _ _ _ Hw) as Hlt.
    rewrite spawn_length in Hlt.
    apply spawn_lookup in Hw. subst w. cbn [i pc].
    rewrite Z.add_0_l, Z.sub_diag.
    repeat split; try lia; try discriminate. apply Z.divide_0_r.
  - intros it c [].
  - constructor.
  - intros it. constructor.
  - intros _ it w c Hw Hc. exfalso.
    apply spawn_lookup in Hw. subst w. cbn [i] in Hc. lia.
Qed.

(** The worker index is determined by the chunk. *)
Lemma same_worker (it it' : nat) (c : Z) :
  (it < Z.to_nat (_nthreads e))%nat -> (it' < Z.to_nat (_nthreads e))%nat ->
  (_nthreads e | c - Z.of_nat it)%Z -> (_nthreads e | c - Z.of_nat it')%Z ->
  it = it'.
Proof using Hnw.
  intros Hit Hit' Hd Hd'.
  assert (Hdd : (_nthreads e | Z.of_nat it - Z.of_nat it')%Z).
  { replace (Z.of_nat it - Z.of_nat it')%Z
      with ((c - Z.of_nat it') - (c - Z.of_nat it))%Z by lia.
    now apply Z.divide_sub_r. }
  apply divide_small in Hdd; lia.
Qed.

Lemma inv_no_wrap_worker_step (it : nat) (st : state) :
  inv_no_wrap e st -> inv_no_wrap e (worker_step e it st).
Proof using Hnw.
  intros [Hlen Hcnt Hcalls Hnd Hso Hcov].
  destruct Hnw as [HN [HC HW]].
  worker_cases e it st w Hw.
  - (* takes the else branch *)
    destruct (Hcnt it w Hw) as [H1 [H2 [H3 [H4 H5]]]].
    assert (Hnext : next_i e (i w) = (i w + _nthreads e)%Z)
      by (apply next_i_no_wrap; lia).
    constructor; cbn [workers trace interrupted].
    + now rewrite length_insert.
    + intros it' w' Hw'. apply lookup_insert_Some_eq in Hw'.
      destruct Hw' as [[-> [<- _]]|[Hne Hw']]; [|eauto].
      cbn [i pc]. rewrite Hnext.
      repeat split; try lia; try discriminate.
      replace (i w + _nthreads e - Z.of_nat it)%Z
        with ((i w - Z.of_nat it) + _nthreads e)%Z by lia.
      apply Z.divide_add_r; [exact H2|apply Z.divide_refl].
    + intros it' c [Hin|Hin]; [discriminate|].
      destruct (Hcalls it' c Hin) as [w' [Hw' [Hr [Hd Hc]]]].
      destruct (decide (it' = it)) as [->|Hne].
      * eexists. split; [apply list_lookup_insert_eq; eapply lookup_lt_Some; eauto|].
        cbn [i]. rewrite Hnext. assert (w' = w) by congruence. subst w'.
        repeat split; try lia; assumption.
      * exists w'. rewrite list_lookup_insert_ne by congruence. auto.
    + erewrite calls_same; [exact Hnd|]. right. eauto.
    + intros it'. erewrite calls_of_cons_skip; [apply Hso|reflexivity].
    + discriminate.
  - (* enters the try block *)
    destruct (Hcnt it w Hw) as [H1 [H2 [H3 [H4 H5]]]].
    constructor; cbn [workers trace interrupted].
    + now rewrite length_insert.
    + intros it' w' Hw'. apply lookup_insert_Some_eq in Hw'.
      destruct Hw' as [[-> [<- _]]|[Hne Hw']]; [|eauto].
      cbn [i pc]. repeat split; try lia; try discriminate; assumption.
    + intros it' c Hin.
      destruct (Hcalls it' c Hin) as [w' [Hw' [Hr [Hd Hc]]]].
      destruct (decide (it' = it)) as [->|Hne].
      * eexists. split; [apply list_lookup_insert_eq; eapply lookup_lt_Some; eauto|].
        cbn [i]. assert (w' = w) by congruence. subst w'. auto.
      * exists w'. rewrite list_lookup_insert_ne by congruence. auto.
    + erewrite calls_same; [exact Hnd|]. now left.
    + intros it'. erewrite calls_of_same_trace; [apply Hso|reflexivity].
    + intros _ it' w' c Hw' Hr Hd Hinv. apply lookup_insert_Some_eq in Hw'.
      destruct Hw' as [[-> [<- _]]|[Hne Hw']]; cbn [i] in *; eauto.
  - (* leaves the loop *)
    destruct (Hcnt it w Hw) as [H1 [H2 [H3 [H4 H5]]]].
    constructor; cbn [workers trace interrupted].
    + now rewrite length_insert.
    + intros it' w' Hw'. apply lookup_insert_Some_eq in Hw'.
      destruct Hw' as [[-> [<- _]]|[Hne Hw']]; [|eauto].
      cbn [i pc]. repeat split; try lia; try discriminate; assumption.
    + intros it' c Hin.
      destruct (Hcalls it' c Hin) as [w' [Hw' [Hr [Hd Hc]]]].
      destruct (decide (it' = it)) as [->|Hne].
      * eexists. split; [apply list_lookup_insert_eq; eapply lookup_lt_Some; eauto|].
        cbn [i]. assert (w' = w) by congruence. subst w'. auto.
      * exists w'. rewrite list_lookup_insert_ne by congruence. auto.
    + erewrite calls_same; [exact Hnd|]. now left.
    + intros it'. erewrite calls_of_same_trace; [apply Hso|reflexivity].
    + intros Hint it' w' c Hw' Hr Hd Hinv. apply lookup_insert_Some_eq in Hw'.
      destruct Hw' as [[-> [<- _]]|[Hne Hw']]; cbn [i] in *; eauto.
  - (* processes the chunk *)
    destruct (Hcnt it w Hw) as [H1 [H2 [H3 [H4 H5]]]].
    specialize (H4 Hpc).
    assert (Hit : (it < Z.to_nat (_nthreads e))%nat)
      by (rewrite <- Hlen; eapply lookup_lt_Some; eauto).
    assert (Hnext : next_i e (i w) = (i w + _nthreads e)%Z)
      by (apply next_i_no_wrap; lia).
    assert (Hold : forall it' c, In (Call it' c) (trace st) ->
              exists w', <[it := {| pc := AtLoopTest; i := next_i e (i w) |}]>
                           (workers st) !! it' = Some w'
                         /\ (Z.of_nat it' <= c < i w')%Z
                         /\ (_nthreads e | c - Z.of_nat it')%Z
                         /\ (c < count_chunks e)%Z).
    { intros it' c Hin.
      destruct (Hcalls it' c Hin) as [w' [Hw' [Hr [Hd Hc]]]].
      destruct (decide (it' = it)) as [->|Hne].
      * eexists. split; [apply list_lookup_insert_eq; eapply lookup_lt_Some; eauto|].
        cbn [i]. rewrite Hnext. assert (w' = w) by congruence. subst w'.
        repeat split; try lia; assumption.
      * exists w'. rewrite list_lookup_insert_ne by congruence. auto. }
    assert (Hfresh : forall it', ~ In (Call it' (i w)) (trace st)).
    { intros it' Hin.
      destruct (Hcalls it' _ Hin) as [w' [Hw' [Hr [Hd Hc]]]].
      assert (Hit' : (it' < Z.to_nat (_nthreads e))%nat)
        by (rewrite <- Hlen; eapply lookup_lt_Some; eauto).
      assert (it = it') by (eapply same_worker; eauto). subst it'.
      assert (w' = w) by congruence. subst w'. lia. }
    constructor; cbn [workers trace interrupted].
    + now rewrite length_insert.
    + intros it' w' Hw'. apply lookup_insert_Some_eq in Hw'.
      destruct Hw' as [[-> [<- _]]|[Hne Hw']]; [|eauto].
      cbn [i pc]. rewrite Hnext.
      repeat split; try lia; try discriminate.
      replace (i w + _nthreads e - Z.of_nat it)%Z
        with ((i w - Z.of_nat it) + _nthreads e)%Z by lia.
      apply Z.divide_add_r; [exact H2|apply Z.divide_refl].
    + intros it' c Hin. destruct (invokes_callback _); [|now apply Hold].
      destruct Hin as [[= <- <-]|Hin]; [|now apply Hold].
      eexists. split; [apply list_lookup_insert_eq; eapply lookup_lt_Some; eauto|].
      cbn [i]. rewrite Hnext. repeat split; try lia; assumption.
    + destruct (invokes_callback _).
      * erewrite calls_cons_call by reflexivity.
        apply NoDup_app. split; [exact Hnd|].
        split; [|apply NoDup_singleton].
        intros x Hx Hx'. apply list_elem_of_In in Hx.
        apply list_elem_of_singleton in Hx'. subst x.
        apply calls_In in Hx. destruct Hx as [it' Hin]. now apply (Hfresh it').
      * erewrite calls_same; [exact Hnd|]. now left.
    + intros it'. destruct (invokes_callback _);
        [|erewrite calls_of_same_trace; [apply Hso|reflexivity]].
      erewrite calls_of_cons_call by reflexivity.
      destruct (Nat.eqb_spec it' it) as [->|Hne]; [|apply Hso].
      apply StronglySorted_snoc_lt; [apply Hso|].
      intros x Hx. apply calls_of_In in Hx.
      destruct (Hcalls it x Hx) as [w' [Hw' [Hr _]]].
      assert (w' = w) by congruence. subst w'. lia.
    + intros Hint it' w' c Hw' Hr Hd Hinv. apply lookup_insert_Some_eq in Hw'.
      destruct Hw' as [[-> [<- _]]|[Hne Hw']].
      * cbn [i] in Hr. rewrite Hnext in Hr.
        destruct (Z.eq_dec c (i w)) as [->|Hc].
        -- rewrite Hinv. apply in_eq.
        -- assert (Hlt : (c < i w)%Z).
           { assert (Hdd : (_nthreads e | i w - c)%Z).
             { replace (i w - c)%Z
                 with ((i w - Z.of_nat it) - (c - Z.of_nat it))%Z by lia.
               now apply Z.divide_sub_r. }
             destruct (Z_lt_ge_dec c (i w)) as [|Hge]; [assumption|].
             apply divide_small in Hdd; lia. }
           assert (Hin : In (Call it c) (trace st)) by (eapply Hcov; eauto; lia).
           destruct (invokes_callback (chunk_outcome e (i w)));
             [now apply in_cons|assumption].
      * assert (Hin : In (Call it' c) (trace st)) by (eapply Hcov; eauto).
        destruct (invokes_callback (chunk_outcome e (i w)));
          [now apply in_cons|assumption].
  - now constructor.
  - now constructor.
Qed.

Lemma inv_no_wrap_main_step (u : bool) (st : state) :
  inv_no_wrap e st -> inv_no_wrap e (main_step e u st).
Proof using Hnw.
  intros [Hlen Hcnt Hcalls Hnd Hso Hcov].
  destruct (main_step_trace e u st) as [Htr Hws].
  constructor.
  - now rewrite Hws.
  - now rewrite Hws.
  - rewrite Htr, Hws. exact Hcalls.
  - erewrite calls_same; [exact Hnd|]. now left.
  - intros it. erewrite calls_of_same_trace; [apply Hso|exact Htr].
  - intros Hint. rewrite Htr, Hws. apply Hcov.
    destruct (interrupted st) eqn:E; [|reflexivity].
    now rewrite main_step_interrupted in Hint.
Qed.

Lemma inv_no_wrap_run (sched : list actor) (st : state) :
  inv_no_wrap e st -> inv_no_wrap e (run e sched st).
Proof using Hnw.
  revert st. induction sched as [|a sched IH]; intros st I; [exact I|].
  rewrite run_cons. apply IH. destruct a; cbn [step].
  - now apply inv_no_wrap_worker_step.
  - now apply inv_no_wrap_main_step.
Qed.

Lemma inv_no_wrap_apply (sched : list actor) (o : io) :
  inv_no_wrap e (cp.apply e sched o).
Proof using Hnw. apply inv_no_wrap_run, inv_no_wrap_init. Qed.

End NoWrap.

(** ** [apply] returns *)

Lemma worker_step_local (e : env) (it : nat) (st : state) (w : worker) :
  workers st !! it = Some w ->
  workers (worker_step e it st) !! it = Some (local_step e (interrupted st) w)
  /\ interrupted (worker_step e it st) = interrupted st
  /\ main (worker_step e it st) = main st.
Proof.
  intros Hw.
  assert (Hlt : (it < length (workers st))%nat) by (eapply lookup_lt_Some; eauto).
  unfold worker_step, local_step. rewrite Hw.
  destruct (pc w) eqn:Hpc.
  - destruct (i w <? count_chunks e)%Z; [destruct (interrupted st) eqn:Hint|];
      cbn [negb workers interrupted main];
      rewrite ?list_lookup_insert_eq by exact Hlt; rewrite ?Hint; auto.
  - cbn [workers interrupted main]. rewrite list_lookup_insert_eq by exact Hlt. auto.
  - rewrite Hw. auto.
Qed.

Lemma run_worker_local (e : env) (it : nat) (n : nat) (st : state) (w : worker) :
  workers st !! it = Some w ->
  workers (run e (replicate n (Worker it)) st) !! it
  = Some (Nat.iter n (local_step e (interrupted st)) w)
  /\ interrupted (run e (replicate n (Worker it)) st) = interrupted st
  /\ main (run e (replicate n (Worker it)) st) = main st.
Proof.
  revert st w. induction n as [|n IH]; intros st w Hw; [auto|].
  cbn [replicate]. rewrite run_cons. cbn [step].
  destruct (worker_step_local e it st w Hw) as [Hw' [Hint Hm]].
  destruct (IH _ _ Hw') as [Hw'' [Hint' Hm']].
  rewrite Hw'', Hint', Hm', Hint, Hm, Nat.iter_succ_r. auto.
Qed.

(** Without wrap-around the loop of a worker ends. *)
Lemma local_exit (e : env) (flag : bool) (m : nat) (w : worker) :
  no_wrap e ->
  (0 <= i w)%Z -> (pc w = InTry -> (i w < count_chunks e)%Z) ->
  (Z.to_nat (count_chunks e - i w) <= m)%nat ->
  exists n, pc (Nat.iter n (local_step e flag) w) = Exited.
Proof.
  intros [HN [HC HW]]. revert w.
  induction m as [|m IH]; intros [k c] Hi Htry Hm; cbn [pc i] in *.
  - destruct k.
    + exists 1%nat. cbn [Nat.iter nat_rect]. unfold local_step. cbn [pc i].
      destruct (Z.ltb_spec c (count_chunks e)); [lia|reflexivity].
    + specialize (Htry eq_refl). lia.
    + now exists 0%nat.
  - assert (Hnext : (c < count_chunks e)%Z ->
              exists n, pc (Nat.iter n (local_step e flag)
                              {| pc := AtLoopTest; i := next_i e c |}) = Exited).
    { intros Hlt. rewrite next_i_no_wrap by (cbn [i]; lia).
      apply IH; cbn [pc i]; [lia|discriminate|lia]. }
    destruct k.
    + destruct (c <? count_chunks e)%Z eqn:E.
      * destruct (Hnext (proj1 (Z.ltb_lt _ _) E)) as [n Hn]. destruct flag.
        -- exists (S n). rewrite Nat.iter_succ_r. unfold local_step at 2.
           cbn [pc i negb]. now rewrite E.
        -- exists (S (S n)). rewrite !Nat.iter_succ_r. unfold local_step at 3.
           cbn [pc i negb]. rewrite E. unfold local_step at 2. cbn [pc i]. exact Hn.
      * exists 1%nat. cbn [Nat.iter nat_rect]. unfold local_step. cbn [pc i].
        now rewrite E.
    + destruct (Hnext (Htry eq_refl)) as [n Hn].
      exists (S n). rewrite Nat.iter_succ_r. unfold local_step at 2. cbn [pc i].
      exact Hn.
    + now exists 0%nat.
Qed.

Lemma worker_can_exit (e : env) (it : nat) (st : state) :
  no_wrap e -> inv st -> inv_no_wrap e st ->
  exists n, forall w,
    workers (run e (replicate n (Worker it)) st) !! it = Some w -> pc w = Exited.
Proof.
  intros Hnw I Inw. destruct (workers st !! it) as [w|] eqn:Hw.
  - destruct (nw_counter _ _ Inw it w Hw) as [_ [_ [_ [Htry _]]]].
    destruct (local_exit e (interrupted st) _ w Hnw
                (inv_i_range _ I it w Hw) Htry (Nat.le_refl _)) as [n Hn].
    exists n. intros w'. rewrite (proj1 (run_worker_local e it n st w Hw)).
    now intros [= <-].
  - exists 0%nat. cbn [replicate run fold_left]. rewrite Hw. discriminate.
Qed.

Lemma run_only_workers (e : env) (sched : list actor) (st : state) :
  only_workers sched ->
  interrupted (run e sched st) = interrupted st /\ main (run e sched st) = main st.
Proof.
  revert st. induction sched as [|a sched IH]; intros st Hs; [auto|].
  rewrite run_cons.
  destruct (Hs a (or_introl eq_refl)) as [it ->].
  destruct (IH (step e (Worker it) st)) as [H1 H2].
  { intros a Ha. apply Hs. now right. }
  rewrite H1, H2. cbn [step].
  worker_cases e it st w Hw; auto.
Qed.

Lemma exited_stays (e : env) (a : actor) (it : nat) (st : state) (w : worker) :
  workers st !! it = Some w -> pc w = Exited ->
  workers (step e a st) !! it = Some w.
Proof.
  intros Hw Hpc. destruct a as [it'|u]; cbn [step].
  - destruct (decide (it' = it)) as [->|Hne].
    + unfold worker_step. rewrite Hw, Hpc. exact Hw.
    + now rewrite worker_step_others.
  - now rewrite (proj2 (main_step_trace e u st)).
Qed.

Lemma exited_stays_run (e : env) (sched : list actor) (it : nat) (st : state) (w : worker) :
  workers st !! it = Some w -> pc w = Exited ->
  workers (run e sched st) !! it = Some w.
Proof.
  revert st. induction sched as [|a sched IH]; intros st Hw Hpc; [exact Hw|].
  rewrite run_cons. apply IH; [|exact Hpc]. now apply exited_stays.
Qed.

Lemma step_length_workers (e : env) (a : actor) (st : state) :
  length (workers (step e a st)) = length (workers st).
Proof.
  destruct a as [it|u]; cbn [step].
  - worker_cases e it st w Hw; cbn [workers]; now rewrite ?length_insert.
  - now rewrite (proj2 (main_step_trace e u st)).
Qed.

Lemma run_length_workers (e : env) (sched : list actor) (st : state) :
  length (workers (run e sched st)) = length (workers st).
Proof.
  revert st. induction sched as [|a s IH]; intros st; [reflexivity|].
  rewrite run_cons, IH. apply step_length_workers.
Qed.

(** Without wrap-around the workers can run until all have returned. *)
Lemma workers_can_exit (e : env) (st : state) (k : nat) :
  no_wrap e -> inv st -> inv_no_wrap e st ->
  exists sched,
    only_workers sched
    /\ forall it w, (it < k)%nat ->
         workers (run e sched st) !! it = Some w -> pc w = Exited.
Proof.
  intros Hnw I Inw. induction k as [|k IH].
  - exists []. split; [intros a []|]. intros it w Hlt. lia.
  - destruct IH as [s [Hs Hex]].
    destruct (worker_can_exit e k (run e s st) Hnw)
      as [n Hn]; [now apply inv_run|now apply inv_no_wrap_run|].
    exists (s ++ replicate n (Worker k))%list. split.
    + intros a Ha. apply in_app_or in Ha. destruct Ha as [Ha|Ha]; [auto|].
      apply list_elem_of_In, elem_of_replicate in Ha. destruct Ha as [-> _]. eauto.
    + intros it w Hlt. rewrite run_app.
      destruct (decide (it = k)) as [->|Hne]; [apply Hn|].
      rewrite run_worker_others by exact Hne. apply Hex. lia.
Qed.

Lemma all_finished (st : state) :
  inv st -> (forall it w, workers st !! it = Some w -> pc w = Exited) ->
  forallb (fun b : bool => b) (finished st) = true.
Proof.
  intros I Hex. apply forallb_forall. intros b Hb.
  apply list_elem_of_In, list_elem_of_lookup in Hb. destruct Hb as [it Hit].
  assert (Hlt : (it < length (workers st))%nat).
  { rewrite <- (inv_len_finished _ I). eapply lookup_lt_Some; eauto. }
  apply lookup_lt_is_Some in Hlt. destruct Hlt as [w Hw].
  assert (Ht : finished st !! it = Some true).
  { apply (inv_finished _ I). exists w. split; [exact Hw|eauto]. }
  congruence.
Qed.

Lemma main_step_frame (e : env) (u : bool) (st : state) :
  finished (main_step e u st) = finished st
  /\ interrupted_bythread (main_step e u st) = interrupted_bythread st
  /\ all_exited (main_step e u st) = all_exited st.
Proof.
  unfold main_step, all_exited. destruct (main st); auto.
  - destruct (forallb _ (finished st)); auto. destruct (_ && _); auto.
  - destruct (forallb _ (workers st)) eqn:E; auto.
Qed.

Lemma main_false_interrupted (e : env) (st : state) :
  interrupted (main_step e false st) = interrupted st.
Proof.
  unfold main_step. destruct (main st); try reflexivity.
  - destruct (forallb _ _); [reflexivity|]. now rewrite andb_false_r.
  - now destruct (all_exited st).
Qed.

Lemma main_false_verdict (e : env) (st : state) :
  verdict (main_step e false st) = verdict st.
Proof.
  unfold verdict.
  now rewrite main_false_interrupted, (proj1 (proj2 (main_step_frame e false st))).
Qed.

(** The main thread moves on once all workers have returned. *)
Lemma main_step_progress (e : env) (u : bool) (st : state) :
  forallb (fun b : bool => b) (finished st) = true -> all_exited st = true ->
  match main st with
  | Spawned => main (main_step e u st) = Polling 0
  | Polling _ => main (main_step e u st) = Joining
  | Joining => main (main_step e u st) = Returned (verdict st)
  | Returned r => main (main_step e u st) = Returned r
  end.
Proof.
  intros Hfin Hall. unfold main_step.
  destruct (main st) eqn:Hm; rewrite ?Hfin, ?Hall; cbn [main set_main]; auto.
Qed.

(** Once all workers have returned, three steps of the main thread end
    [apply]. *)
Lemma main_returns (e : env) (st : state) :
  inv st -> (forall it w, workers st !! it = Some w -> pc w = Exited) ->
  main (run e (replicate 3 (Main false)) st) = Returned (verdict st)
  \/ (exists r, main st = Returned r
                /\ main (run e (replicate 3 (Main false)) st) = Returned r).
Proof.
  intros I Hex.
  pose proof (all_finished st I Hex) as Hfin.
  pose proof (proj2 (all_exited_spec st) Hex) as Hall.
  cbn [replicate]. rewrite !run_cons. cbn [run fold_left step].
  set (st1 := main_step e false st).
  set (st2 := main_step e false st1).
  assert (Hfin1 : forallb (fun b : bool => b) (finished st1) = true)
    by (unfold st1; now rewrite (proj1 (main_step_frame e false st))).
  assert (Hall1 : all_exited st1 = true)
    by (unfold st1; now rewrite (proj2 (proj2 (main_step_frame e false st)))).
  assert (Hfin2 : forallb (fun b : bool => b) (finished st2) = true)
    by (unfold st2; now rewrite (proj1 (main_step_frame e false st1))).
  assert (Hall2 : all_exited st2 = true)
    by (unfold st2; now rewrite (proj2 (proj2 (main_step_frame e false st1)))).
  assert (Hv1 : verdict st1 = verdict st) by apply main_false_verdict.
  assert (Hv2 : verdict st2 = verdict st)
    by (unfold st2; now rewrite main_false_verdict).
  pose proof (main_step_progress e false st Hfin Hall) as P0.
  pose proof (main_step_progress e false st1 Hfin1 Hall1) as P1.
  pose proof (main_step_progress e false st2 Hfin2 Hall2) as P2.
  fold st1 in P0. fold st2 in P1.
  destruct (main st) as [|k| |r] eqn:Hm.
  - left. rewrite P0 in P1. rewrite P1 in P2. now rewrite P2, Hv2.
  - left. rewrite P0 in P1. rewrite P1 in P2. now rewrite P2, Hv1.
  - left. rewrite P0 in P1. rewrite P1 in P2. exact P2.
  - right. exists r. split; [reflexivity|].
    rewrite P0 in P1. rewrite P1 in P2. exact P2.
Qed.

(** Without wrap-around every run of [apply] can be continued until
    [apply] returns, with the flag as it was. *)
Lemma apply_can_return (e : env) (o : io) (s1 : list actor) :
  no_wrap e ->
  exists s2 r,
    main (run e s2 (cp.apply e s1 o)) = Returned r
    /\ interrupted (run e s2 (cp.apply e s1 o)) = interrupted (cp.apply e s1 o).
Proof.
  intros Hnw.
  pose proof (inv_apply e s1 o) as I.
  pose proof (inv_no_wrap_apply e Hnw s1 o) as Inw.
  set (st := cp.apply e s1 o) in *.
  destruct (workers_can_exit e st (length (workers st)) Hnw I Inw) as [s [Hs Hex]].
  destruct (run_only_workers e s st Hs) as [Hint Hm].
  assert (Hex' : forall it w, workers (run e s st) !! it = Some w -> pc w = Exited).
  { intros it w Hw. eapply Hex; [|exact Hw].
    apply lookup_lt_Some in Hw. now rewrite run_length_workers in Hw. }
  assert (Hint3 : interrupted (run e (replicate 3 (Main false)) (run e s st))
                  = interrupted st).
  { cbn [replicate run fold_left step]. now rewrite !main_false_interrupted. }
  exists (s ++ replicate 3 (Main false))%list.
  destruct (main_returns e (run e s st) (inv_run e s st I) Hex') as [H|[r [_ H]]].
  - eexists. rewrite run_app. split; [exact H|exact Hint3].
  - exists r. rewrite run_app. split; [exact H|exact Hint3].
Qed.

(** ** What holds when no counter wraps around *)

(** The loop of a worker visits [k], [k + _nthreads], ... below the
    number of chunks, and nothing else. *)
Lemma in_loop_without_wrap (e : env) (k c : Z) :
  no_wrap e -> (0 <= k)%Z ->
  (in_loop e k c <-> (k <= c < count_chunks e)%Z /\ (_nthreads e | c - k)%Z).
Proof.
  intros [HN [HC HW]] Hk. split.
  - induction 1 as [Hlt|c Hloop [IH1 IH2] Hnext].
    + split; [lia|]. rewrite Z.sub_diag. apply Z.divide_0_r.
    + rewrite next_i_no_wrap in * by lia. split; [lia|].
      replace (c + _nthreads e - k)%Z with ((c - k) + _nthreads e)%Z by lia.
      apply Z.divide_add_r; [exact IH2|apply Z.divide_refl].
  - intros [Hr [q Hq]].
    replace c with (k + q * _nthreads e)%Z by lia.
    apply in_loop_arith; lia || nia.
Qed.

(** Without wrap-around the loops of the workers [0 .. _nthreads - 1]
    partition the chunks [0 .. count_chunks - 1]: every chunk is visited
    by the loop of worker [c mod _nthreads] and by no other, and nothing
    else is visited. *)
Lemma partition_without_wrap (e : env) (c : Z) :
  no_wrap e ->
  ((0 <= c < count_chunks e)%Z ->
   in_loop e (c mod _nthreads e) c
   /\ forall k, (0 <= k < _nthreads e)%Z -> in_loop e k c -> k = (c mod _nthreads e)%Z)
  /\ (forall k, (0 <= k)%Z -> in_loop e k c -> (0 <= c < count_chunks e)%Z).
Proof.
  intros Hnw. pose proof Hnw as [HN [HC HW]]. split.
  - intros Hc.
    pose proof (Z.mod_pos_bound c (_nthreads e) ltac:(lia)) as Hm.
    pose proof (Z.div_mod c (_nthreads e) ltac:(lia)) as Hdm.
    assert (Hle : (c mod _nthreads e <= c)%Z) by (apply Z.mod_le; lia).
    split.
    + apply in_loop_without_wrap; [exact Hnw|lia|]. split; [lia|].
      exists (c / _nthreads e)%Z. lia.
    + intros k Hk Hloop. apply in_loop_without_wrap in Hloop; [|exact Hnw|lia].
      destruct Hloop as [Hr [q Hq]].
      apply (Z.mod_unique_pos c (_nthreads e) q k); lia.
  - intros k Hk Hloop. apply in_loop_without_wrap in Hloop; [|exact Hnw|lia]. lia.
Qed.

(** Without wrap-around a worker enters [f] for chunks in strictly
    increasing order. *)
Lemma calls_increasing_without_wrap (e : env) (o : io) (sched : list actor) (it : nat) :
  no_wrap e -> StronglySorted Z.lt (calls_of it (cp.apply e sched o)).
Proof. intros Hnw. apply (nw_sorted _ _ (inv_no_wrap_apply e Hnw sched o)). Qed.

(** Without wrap-around, if the flag is never set and no chunk fails,
    then [apply], when it returns, returns normally and [f] has been
    entered once for every chunk below [count_chunks] and for nothing
    else; and every such run can be continued until [apply] returns. *)
Lemma apply_exactly_once_without_wrap (e : env) (o : io) (s1 : list actor) :
  no_wrap e ->
  (forall c, chunk_outcome e c = Returns) ->
  interrupted (cp.apply e s1 o) = false ->
  (forall r, main (cp.apply e s1 o) = Returned r ->
     r = Normal
     /\ NoDup (calls (cp.apply e s1 o))
     /\ forall c, In c (calls (cp.apply e s1 o)) <-> (0 <= c < count_chunks e)%Z)
  /\ exists s2,
       main (run e s2 (cp.apply e s1 o)) = Returned Normal
       /\ interrupted (run e s2 (cp.apply e s1 o)) = false.
Proof.
  intros Hnw Hok.
  assert (Hret : forall s, interrupted (cp.apply e s o) = false ->
            forall r, main (cp.apply e s o) = Returned r ->
     r = Normal
     /\ NoDup (calls (cp.apply e s o))
     /\ forall c, In c (calls (cp.apply e s o)) <-> (0 <= c < count_chunks e)%Z).
  { intros s Hint r Hr.
    pose proof (inv_apply e s o) as I.
    pose proof (inv_no_wrap_apply e Hnw s o) as Inw.
    pose proof Hnw as [HN [HC HW]].
    set (st := cp.apply e s o) in *.
    destruct (inv_returned _ I r Hr) as [Hex ->].
    split; [unfold verdict; now rewrite Hint|].
    split; [apply (nw_nodup _ _ Inw)|].
    intros c. rewrite calls_In. split.
    - intros [it Hin]. destruct (nw_calls _ _ Inw it c Hin) as [w [_ [Hr' [_ Hc]]]]. lia.
    - intros Hc.
      pose proof (Z.mod_pos_bound c (_nthreads e) ltac:(lia)) as Hm.
      pose proof (Z.div_mod c (_nthreads e) ltac:(lia)) as Hdm.
      assert (Hle : (c mod _nthreads e <= c)%Z) by (apply Z.mod_le; lia).
      set (it := Z.to_nat (c mod _nthreads e)).
      assert (Hlt : (it < length (workers st))%nat)
        by (rewrite (nw_len _ _ Inw); unfold it; lia).
      apply lookup_lt_is_Some in Hlt. destruct Hlt as [w Hw].
      destruct (nw_counter _ _ Inw it w Hw) as [_ [_ [_ [_ Hexit]]]].
      specialize (Hexit (Hex it w Hw)).
      exists it. eapply (nw_cover _ _ Inw Hint it w c Hw).
      + unfold it. lia.
      + exists (c / _nthreads e)%Z. unfold it. lia.
      + now rewrite Hok. }
  intros Hint. split; [now apply Hret|].
  destruct (apply_can_return e o s1 Hnw) as [s2 [r [Hr Hint2]]].
  exists s2. rewrite Hint in Hint2. split; [|exact Hint2].
  unfold cp.apply in *. rewrite <- run_app in *.
  destruct (Hret (s1 ++ s2)%list Hint2 r Hr) as [-> _]. exact Hr.
Qed.

(** ** The result of [apply] *)








(** * Further properties *)

(** ** [r_warn_buf::warning] *)

Lemma warning_stream (t : thread_id) (s : string) (w : warn_state) :
  (issued (r_warn_buf.warning t s w) ++ _warnings (r_warn_buf.warning t s w))%list
  = (issued w ++ _warnings w ++ [s])%list.
Proof.
  unfold r_warn_buf.warning.
  destruct (_warnings w ++ [s])%list eqn:E.
  - now destruct (_warnings w).
  - cbn [negb andb]. destruct (is_main_thread t); cbn [issued _warnings].
    + now rewrite app_nil_r.
    + reflexivity.
Qed.

(** X1.  Warnings are issued by the main thread only, all that wait and
    in the order of the calls: a call of [warning] by a worker thread
    appends to [_warnings] and issues nothing, a call by the main thread
    issues every waiting warning and then its own and leaves [_warnings]
    empty, and after any sequence of calls by any threads the warnings
    issued followed by those waiting are the arguments in call order. *)
Theorem warnings_issued_by_main_thread_in_order :
  (forall it s w,
      issued (r_warn_buf.warning (WorkerThread it) s w) = issued w
      /\ _warnings (r_warn_buf.warning (WorkerThread it) s w)
         = (_warnings w ++ [s])%list)
  /\ (forall s w,
      issued (r_warn_buf.warning MainThread s w)
      = (issued w ++ _warnings w ++ [s])%list
      /\ _warnings (r_warn_buf.warning MainThread s w) = [])
  /\ (forall ws w,
      (issued (r_warn_buf.warnings ws w) ++ _warnings (r_warn_buf.warnings ws w))%list
      = (issued w ++ _warnings w ++ map snd ws)%list).
Proof.
  split; [|split].
  - intros it s w. unfold r_warn_buf.warning. cbn [is_main_thread].
    rewrite andb_false_r. auto.
  - intros s w. unfold r_warn_buf.warning. cbn [is_main_thread].
    destruct (_warnings w ++ [s])%list eqn:E.
    + now destruct (_warnings w).
    + auto.
  - intros ws. induction ws as [|[t s] ws IH]; intros w.
    + cbn. now rewrite app_nil_r.
    + unfold r_warn_buf.warnings in *. cbn [fold_left fst snd map].
      rewrite IH. rewrite app_assoc, warning_stream.
      now rewrite <- !app_assoc.
Qed.

(** ** The switch [_defer] *)

Lemma flush_err_stream_empties (t : thread_id) (o : io) :
  _err_stream (error_handling_r.flush_err_stream t o) = ""
  /\ _defer (error_handling_r.flush_err_stream t o) = _defer o.
Proof.
  unfold error_handling_r.flush_err_stream.
  destruct (empty (_err_stream o)) eqn:E; cbn [negb _err_stream _defer].
  - apply empty_true in E. auto.
  - split; [reflexivity|]. apply print_keeps.
Qed.

Lemma handler_step_defer (line : string) (t : thread_id) (o : io) :
  let o1 := error_handling_r.put line o in
  let o2 := if negb (_defer o1) then error_handling_r.flush_err_stream t o1 else o1 in
  _defer o2 = _defer o /\ (_defer o2 = true \/ _err_stream o2 = "").
Proof.
  cbn zeta. cbn [error_handling_r.put _defer].
  destruct (_defer o) eqn:E; cbn [negb].
  - cbn [_defer]. auto.
  - destruct (flush_err_stream_empties t (error_handling_r.put line o)) as [H1 H2].
    rewrite H1, H2. cbn [error_handling_r.put _defer]. auto.
Qed.

Lemma exec_ops_app (ops1 ops2 : list io_op) (st : progress_simple_R.t * io) :
  exec_ops (ops1 ++ ops2) st = exec_ops ops2 (exec_ops ops1 st).
Proof. apply fold_left_app. Qed.

Lemma exec_op_defer_or_empty (op : io_op) (st : progress_simple_R.t * io) :
  _defer (snd st) = true \/ _err_stream (snd st) = "" ->
  _defer (snd (exec_op op st)) = true \/ _err_stream (snd (exec_op op st)) = "".
Proof.
  intros H. destruct op as [t s| |t|m|m|t p|t dp|t]; cbn [exec_op snd fst].
  - destruct (print_keeps t s (snd st)) as [-> ->]. exact H.
  - now left.
  - right. unfold error_handling_r.do_output. cbn [_err_stream].
    apply flush_err_stream_empties.
  - apply (handler_step_defer _ (m_thread m) (snd st)).
  - apply (handler_step_defer _ (m_thread m) (snd st)).
  - left. unfold progress_simple_R.set, progress_simple_R._set. cbn [snd].
    now rewrite (proj2 (print_keeps _ _ _)).
  - left. unfold progress_simple_R.increment, progress_simple_R._set. cbn [snd].
    now rewrite (proj2 (print_keeps _ _ _)).
  - right. unfold progress_simple_R.finalize. cbn [snd].
    unfold error_handling_r.do_output. cbn [_err_stream].
    apply flush_err_stream_empties.
Qed.

(** X2.  Lines wait in [_err_stream] only while output is deferred:
    after any sequence of calls of [print], [defer_output], [do_output],
    the handlers [debug] and [standard], and [set], [increment] and
    [finalize] of the progress bar, by any threads, either [_defer] is
    set or [_err_stream] is empty; and after [do_output] or [finalize]
    [_err_stream] is empty and [_defer] is not set. *)
Theorem err_stream_empty_unless_deferred :
  (forall ops self,
      let o := snd (exec_ops ops (self, io_init)) in
      _defer o = true \/ _err_stream o = "")
  /\ (forall ops t st,
      let o := snd (exec_ops (ops ++ [OpDoOutput t]) st) in
      _defer o = false /\ _err_stream o = "")
  /\ (forall ops t st,
      let o := snd (exec_ops (ops ++ [OpFinalize t]) st) in
      _defer o = false /\ _err_stream o = "").
Proof.
  split; [|split].
  - intros ops self. cbn zeta.
    assert (H : forall st, _defer (snd st) = true \/ _err_stream (snd st) = "" ->
                _defer (snd (exec_ops ops st)) = true
                \/ _err_stream (snd (exec_ops ops st)) = "").
    { induction ops as [|op ops IH]; intros st Hst; [exact Hst|].
      apply IH, exec_op_defer_or_empty, Hst. }
    apply H. now right.
  - intros ops t st. cbn zeta. rewrite exec_ops_app.
    cbn [exec_ops fold_left exec_op snd].
    unfold error_handling_r.do_output. cbn [_defer _err_stream].
    split; [reflexivity|apply flush_err_stream_empties].
  - intros ops t st. cbn zeta. rewrite exec_ops_app.
    cbn [exec_ops fold_left exec_op snd]. unfold progress_simple_R.finalize.
    cbn [snd]. unfold error_handling_r.do_output. cbn [_defer _err_stream].
    split; [reflexivity|apply flush_err_stream_empties].
Qed.

Lemma finalize_main_io (self : progress_simple_R.t) (o : io) :
  snd (progress_simple_R.finalize MainThread (self, o))
  = {| _s := "";
       console := console o ++ _s o ++ frame_100 ++ endl ++ _err_stream o;
       _err_stream := ""; _defer := false |}.
Proof.
  unfold progress_simple_R.finalize, progress_simple_R._set.
  cbn [fst snd progress_simple_R._p]. rewrite render_1, !print_main.
  unfold error_handling_r.do_output, error_handling_r.flush_err_stream.
  cbn [_s console _err_stream _defer error_handling_r.defer_output].
  destruct (empty (_err_stream o)) eqn:E; cbn [negb].
  - apply empty_true in E. rewrite E. cbn [_s console _err_stream _defer].
    now rewrite !append_assoc, append_nil_r.
  - rewrite print_main. cbn [_s console _err_stream _defer].
    now rewrite !append_assoc.
Qed.

(** X3.  While output is deferred the handlers show nothing, whoever
    calls them: the line is added to [_err_stream] and the console and
    the buffer [_s] stay as they are.  Every update of the progress bar
    defers output, so a message that follows an update is held back; a
    [finalize] by the main thread then shows it after the frame for
    100 % and the line break. *)
Theorem deferred_lines_wait_for_finalize :
  (forall t ty msg w c o,
      let o' := error_handling_r.standard t ty msg w c
                  (error_handling_r.defer_output o) in
      console o' = console o /\ _s o' = _s o
      /\ _err_stream o' = _err_stream o ++ error_handling_r.standard_line ty msg)
  /\ (forall t ty msg w c o,
      let o' := error_handling_r.debug t ty msg w c
                  (error_handling_r.defer_output o) in
      console o' = console o /\ _s o' = _s o
      /\ _err_stream o' = _err_stream o ++ error_handling_r.debug_line ty msg w)
  /\ (forall t t' p self o ty msg w c,
      let o1 := snd (progress_simple_R.set t p (self, o)) in
      _defer o1 = true
      /\ console (error_handling_r.standard t' ty msg w c o1) = console o1
      /\ console (error_handling_r.debug t' ty msg w c o1) = console o1)
  /\ (forall p self o ty msg w c,
      let st1 := progress_simple_R.set MainThread p (self, o) in
      let o2 := error_handling_r.standard MainThread ty msg w c (snd st1) in
      console o2 = console o ++ _s o ++ progress_simple_R.render p
      /\ console (snd (progress_simple_R.finalize MainThread (fst st1, o2)))
         = console o ++ _s o ++ progress_simple_R.render p ++ frame_100 ++ endl
           ++ _err_stream o ++ error_handling_r.standard_line ty msg).
Proof.
  assert (Hset : forall t p self o,
            _defer (snd (progress_simple_R.set t p (self, o))) = true).
  { intros. unfold progress_simple_R.set, progress_simple_R._set. cbn [snd].
    now rewrite (proj2 (print_keeps _ _ _)). }
  assert (Hstd : forall t ty msg w c o, _defer o = true ->
            error_handling_r.standard t ty msg w c o
            = error_handling_r.put (error_handling_r.standard_line ty msg) o).
  { intros t ty msg w c o Hd. unfold error_handling_r.standard.
    cbn [error_handling_r.put _defer]. now rewrite Hd. }
  assert (Hdbg : forall t ty msg w c o, _defer o = true ->
            error_handling_r.debug t ty msg w c o
            = error_handling_r.put (error_handling_r.debug_line ty msg w) o).
  { intros t ty msg w c o Hd. unfold error_handling_r.debug.
    cbn [error_handling_r.put _defer]. now rewrite Hd. }
  split; [|split; [|split]].
  - intros t ty msg w c o. cbn zeta. rewrite Hstd by reflexivity. auto.
  - intros t ty msg w c o. cbn zeta. rewrite Hdbg by reflexivity. auto.
  - intros t t' p self o ty msg w c. cbn zeta.
    rewrite Hstd, Hdbg by apply Hset. auto.
  - intros p self o ty msg w c. cbn zeta.
    rewrite Hstd by apply Hset. rewrite finalize_main_io.
    unfold progress_simple_R.set, progress_simple_R._set.
    cbn [fst snd progress_simple_R._p]. rewrite print_main.
    cbn [error_handling_r.put error_handling_r.defer_output
         console _s _err_stream _defer].
    split; [reflexivity|]. now rewrite !append_assoc.
Qed.

Lemma do_output_text (t : thread_id) (o : io) :
  all_text (error_handling_r.do_output t o) = all_text o.
Proof.
  unfold error_handling_r.do_output.
  rewrite <- (flush_err_stream_text t o). reflexivity.
Qed.

(** X4.  The lines of the handlers keep the order of the calls through
    any switching of [_defer]: after a sequence of calls of [debug],
    [standard], [defer_output] and [do_output] by any threads, the text
    on the console, in the buffer and in [_err_stream], read in this
    order, is the text before followed by the lines of the calls in call
    order. *)
Theorem handler_lines_in_call_order (ops : list io_op)
    (st : progress_simple_R.t * io) :
  forallb is_handler_op ops = true ->
  all_text (snd (exec_ops ops st))
  = all_text (snd st) ++ join (map line_of ops).
Proof.
  revert st. induction ops as [|op ops IH]; intros st Hops.
  - cbn. now rewrite append_nil_r.
  - cbn [forallb] in Hops. apply andb_true_iff in Hops. destruct Hops as [Hop Hops].
    unfold exec_ops in *. cbn [fold_left map join fold_right].
    rewrite (IH _ Hops). rewrite <- append_assoc. f_equal.
    destruct op as [t s| |t|m|m|t p|t dp|t]; try discriminate;
      cbn [exec_op snd line_of].
    + now rewrite append_nil_r.
    + now rewrite do_output_text, append_nil_r.
    + apply debug_text.
    + apply standard_text.
Qed.

Lemma handler_lines_in_call_order_witness :
  all_text (snd (exec_ops
     [OpDefer;
      OpStandard (mk_message (WorkerThread 0) ERRLVL_ERROR "a" "" 0);
      OpDebug (mk_message MainThread ERRLVL_DEBUG "b" "" 0);
      OpDoOutput MainThread]
     (progress_simple_R.new, io_init)))
  = all_text (snd (progress_simple_R.new, io_init))
    ++ join (map line_of
     [OpDefer;
      OpStandard (mk_message (WorkerThread 0) ERRLVL_ERROR "a" "" 0);
      OpDebug (mk_message MainThread ERRLVL_DEBUG "b" "" 0);
      OpDoOutput MainThread]).
Proof.
  exact (handler_lines_in_call_order
     [OpDefer;
      OpStandard (mk_message (WorkerThread 0) ERRLVL_ERROR "a" "" 0);
      OpDebug (mk_message MainThread ERRLVL_DEBUG "b" "" 0);
      OpDoOutput MainThread]
     (progress_simple_R.new, io_init) eq_refl).
Defined.

(** ** The width of the bar *)


(** ** The handlers that write to a file *)

Lemma append_file_keeps (name s : string) (l : logs) :
  _logfile (append_file name s l) = _logfile l
  /\ can_open (append_file name s l) = can_open l.
Proof. split; reflexivity. Qed.

Lemma append_file_text (name s : string) (l : logs) (n : string) :
  file_text (append_file name s l) n
  = if String.eqb n name then file_text l n ++ s else file_text l n.
Proof. reflexivity. Qed.

Lemma call_handler_file_open (h : handler_choice) (line : message -> string)
    (ms : list message) (st : io * logs) :
  (forall m st, can_open (snd st) (_logfile (snd st)) = true ->
     call_handler h m st = (fst st, append_file (_logfile (snd st)) (line m) (snd st))) ->
  can_open (snd st) (_logfile (snd st)) = true ->
  fst (call_handler_all h ms st) = fst st
  /\ _logfile (snd (call_handler_all h ms st)) = _logfile (snd st)
  /\ can_open (snd (call_handler_all h ms st)) = can_open (snd st)
  /\ file_text (snd (call_handler_all h ms st)) (_logfile (snd st))
     = file_text (snd st) (_logfile (snd st)) ++ join (map line ms)
  /\ forall n, n <> _logfile (snd st) ->
       file_text (snd (call_handler_all h ms st)) n = file_text (snd st) n.
Proof.
  intros Hh. revert st. induction ms as [|m ms IH]; intros st Hopen.
  - cbn. rewrite append_nil_r. auto.
  - unfold call_handler_all in *. cbn [fold_left map join fold_right].
    rewrite (Hh m st Hopen).
    destruct (IH (fst st, append_file (_logfile (snd st)) (line m) (snd st)))
      as [H1 [H2 [H3 [H4 H5]]]]; [exact Hopen|].
    cbn [fst snd] in *. rewrite H1, H2, H3.
    destruct (append_file_keeps (_logfile (snd st)) (line m) (snd st)) as [-> ->].
    repeat split.
    + rewrite (proj1 (append_file_keeps _ _ _)) in H4. rewrite H4.
      rewrite append_file_text, String.eqb_refl. apply append_assoc.
    + intros n Hn. rewrite (proj1 (append_file_keeps _ _ _)) in H5.
      rewrite (H5 n Hn), append_file_text.
      now destruct (String.eqb_spec n (_logfile (snd st))).
Qed.

(** X6.  When the log file can be opened, [standard_file] and
    [debug_file] write to it and to nothing else: after any sequence of
    calls by any threads the console, the buffers and [_defer] are as
    before, deferred or not, the log file has its old text followed by
    the lines of the calls in call order, and every other file is
    unchanged.  [standard_file] writes "Error: ", "Warning: " or "## "
    before the message and nothing for a message of level debug. *)
Theorem file_handlers_write_log_only (ms : list message) (st : io * logs) :
  can_open (snd st) (_logfile (snd st)) = true ->
  (fst (call_handler_all UseStandardFile ms st) = fst st
   /\ file_text (snd (call_handler_all UseStandardFile ms st)) (_logfile (snd st))
      = file_text (snd st) (_logfile (snd st))
        ++ join (map (fun m => error_handling_r.standard_file_line (m_type m) (m_msg m))
                     (List.filter (fun m => negb (is_debug (m_type m))) ms))
   /\ forall n, n <> _logfile (snd st) ->
        file_text (snd (call_handler_all UseStandardFile ms st)) n
        = file_text (snd st) n)
  /\ (fst (call_handler_all UseDebugFile ms st) = fst st
      /\ file_text (snd (call_handler_all UseDebugFile ms st)) (_logfile (snd st))
         = file_text (snd st) (_logfile (snd st))
           ++ join (map (fun m => error_handling_r.debug_file_line
                                    (m_type m) (m_msg m) (m_where m)) ms)
      /\ forall n, n <> _logfile (snd st) ->
           file_text (snd (call_handler_all UseDebugFile ms st)) n
           = file_text (snd st) n).
Proof.
  intros Hopen. split.
  - destruct (call_handler_file_open UseStandardFile
                (fun m => error_handling_r.standard_file_line (m_type m) (m_msg m))
                ms st) as [H1 [_ [_ [H4 H5]]]]; [|exact Hopen|].
    { intros m st' Ho. cbn [call_handler]. unfold error_handling_r.standard_file.
      now rewrite Ho. }
    split; [exact H1|]. split; [|exact H5]. rewrite H4. f_equal.
    clear. induction ms as [|m ms IH]; simpl; [reflexivity|].
    destruct (m_type m) eqn:E; simpl; rewrite ?E; simpl; now rewrite IH.
  - destruct (call_handler_file_open UseDebugFile
                (fun m => error_handling_r.debug_file_line
                            (m_type m) (m_msg m) (m_where m))
                ms st) as [H1 [_ [_ [H4 H5]]]]; [|exact Hopen|].
    { intros m st' Ho. cbn [call_handler]. unfold error_handling_r.debug_file.
      now rewrite Ho. }
    auto.
Qed.

Lemma file_handlers_write_log_only_witness :
  file_text (snd (call_handler_all UseStandardFile two_messages (io_init, logs_open)))
            "gdalcubes.log"
  = "Error: a" ++ endl
  /\ file_text (snd (call_handler_all UseDebugFile two_messages (io_init, logs_open)))
               "gdalcubes.log"
     = "Error  message: a [in f]" ++ endl ++ "Debug message: b" ++ endl.
Proof.
  pose proof (file_handlers_write_log_only two_messages (io_init, logs_open) eq_refl)
    as [[_ [H1 _]] [_ [H2 _]]].
  split; [exact H1|exact H2].
Defined.

(** X7.  When the log file cannot be opened, [standard_file] does what
    [standard] does and [debug_file] what [debug] does, for any sequence
    of calls: the lines go to the console channel and no file is
    written. *)
Theorem file_handlers_fall_back (ms : list message) (st : io * logs) :
  can_open (snd st) (_logfile (snd st)) = false ->
  call_handler_all UseStandardFile ms st = call_handler_all UseStandard ms st
  /\ call_handler_all UseDebugFile ms st = call_handler_all UseDebug ms st
  /\ snd (call_handler_all UseStandardFile ms st) = snd st
  /\ snd (call_handler_all UseDebugFile ms st) = snd st
  /\ fst (call_handler_all UseStandardFile ms st)
     = handle_all error_handling_r.standard ms (fst st).
Proof.
  revert st. induction ms as [|m ms IH]; intros st Hclosed.
  - repeat split.
  - unfold call_handler_all, handle_all in *. cbn [fold_left call_handler].
    unfold error_handling_r.standard_file, error_handling_r.debug_file.
    rewrite Hclosed. cbn [negb].
    destruct (IH (error_handling_r.standard (m_thread m) (m_type m) (m_msg m)
                    (m_where m) (m_code m) (fst st), snd st) Hclosed)
      as [H1 [_ [H3 [_ H5]]]].
    destruct (IH (error_handling_r.debug (m_thread m) (m_type m) (m_msg m)
                    (m_where m) (m_code m) (fst st), snd st) Hclosed)
      as [_ [H2 [_ [H4 _]]]].
    repeat split; assumption.
Qed.

Lemma file_handlers_fall_back_witness :
  call_handler_all UseStandardFile two_messages (io_init, logs_closed)
  = call_handler_all UseStandard two_messages (io_init, logs_closed).
Proof.
  exact (proj1 (file_handlers_fall_back two_messages (io_init, logs_closed) eq_refl)).
Defined.

(** X8.  [gc_set_err_handler(debug, log_to_file)] keeps the name of the
    log file when [log_to_file] is empty and sets it otherwise.  With
    [debug] false the handler it installs drops a message of level
    debug, whatever the target: the text of the console channel and of
    every file stay as they are.  With [debug] true the message's line
    is added, to the log file if a name is given and the file opens, and
    to the console channel otherwise. *)
Theorem set_err_handler_debug_switch :
  (forall debug f l,
      _logfile (snd (gc_set_err_handler debug f l))
      = if empty f then _logfile l else f)
  /\ (forall f l t msg w c o,
      let hl := gc_set_err_handler false f l in
      let st' := call_handler (fst hl) (mk_message t ERRLVL_DEBUG msg w c)
                   (o, snd hl) in
      all_text (fst st') = all_text o
      /\ forall n, file_text (snd st') n = file_text l n)
  /\ (forall f l t msg w c o,
      let hl := gc_set_err_handler true f l in
      let st' := call_handler (fst hl) (mk_message t ERRLVL_DEBUG msg w c)
                   (o, snd hl) in
      if negb (empty f) && can_open l f
      then fst st' = o
           /\ file_text (snd st') f
              = file_text l f ++ "Debug message: " ++ msg
                ++ error_handling_r.where_str w ++ endl
      else all_text (fst st')
           = all_text o ++ "[DEBUG] " ++ msg ++ error_handling_r.where_str w ++ endl
           /\ forall n, file_text (snd st') n = file_text l n).
Proof.
  split; [|split].
  - intros debug f l. unfold gc_set_err_handler.
    destruct (empty f), debug; reflexivity.
  - intros f l t msg w c o. cbn zeta. unfold gc_set_err_handler.
    destruct (empty f); cbn [fst snd call_handler m_thread m_type m_msg m_where m_code].
    + split; [|reflexivity]. rewrite standard_text. apply append_nil_r.
    + unfold error_handling_r.standard_file. cbn [snd fst _logfile can_open].
      destruct (can_open l f); cbn [negb fst snd].
      * split; [reflexivity|]. intros n. rewrite append_file_text.
        cbn [error_handling_r.standard_file_line file_text].
        destruct (String.eqb n f); [apply append_nil_r|reflexivity].
      * split; [|reflexivity]. rewrite standard_text. apply append_nil_r.
  - intros f l t msg w c o. cbn zeta. unfold gc_set_err_handler.
    destruct (empty f); cbn [negb andb fst snd call_handler
                             m_thread m_type m_msg m_where m_code].
    + split; [|reflexivity]. now rewrite debug_text.
    + unfold error_handling_r.debug_file. cbn [snd fst _logfile can_open].
      destruct (can_open l f); cbn [negb fst snd].
      * split; [reflexivity|]. rewrite append_file_text, String.eqb_refl.
        reflexivity.
      * split; [|reflexivity]. now rewrite debug_text.
Qed.

(** ** What [apply] calls the callback with *)

Lemma ids_valid_step (e : env) (a : actor) (st : state) :
  inv st -> ids_valid e st -> ids_valid e (step e a st).
Proof.
  intros I Hv. pose proof Hv as [Htry [Hcall Hskip]].
  destruct a as [it|u]; cbn [step].
  - worker_cases e it st w Hw; try exact Hv;
      pose proof (inv_i_range _ I it w Hw) as Hi;
      pose proof (lookup_lt_Some _ _ _ Hw) as Hlen;
      (split; [|split]); cbn [workers trace]; rewrite ?length_insert.
    + intros it' w' Hw' Hpc'. apply lookup_insert_Some_eq in Hw'.
      destruct Hw' as [[_ [<- _]]|[_ Hw']]; [discriminate|eauto].
    + intros it' c [Hin|Hin]; [discriminate|eauto].
    + intros it' c [[= <- <-]|Hin]; [split; [lia|exact Hlen]|eauto].
    + intros it' w' Hw' Hpc'. apply lookup_insert_Some_eq in Hw'.
      destruct Hw' as [[_ [<- _]]|[_ Hw']]; [exact Hlt|eauto].
    + exact Hcall.
    + exact Hskip.
    + intros it' w' Hw' Hpc'. apply lookup_insert_Some_eq in Hw'.
      destruct Hw' as [[_ [<- _]]|[_ Hw']]; [discriminate|eauto].
    + exact Hcall.
    + exact Hskip.
    + intros it' w' Hw' Hpc'. apply lookup_insert_Some_eq in Hw'.
      destruct Hw' as [[_ [<- _]]|[_ Hw']]; [discriminate|eauto].
    + intros it' c Hin. specialize (Htry it w Hw Hpc).
      destruct (invokes_callback (chunk_outcome e (i w))) eqn:Hcb; [|eauto].
      destruct Hin as [[= <- <-]|Hin]; [|eauto].
      split; [lia|]. split; [exact Hcb|exact Hlen].
    + intros it' c Hin. apply Hskip.
      destruct (invokes_callback _); [destruct Hin as [Hin|Hin]; [discriminate|]|];
        exact Hin.
  - destruct (main_step_trace e u st) as [Htr Hws].
    unfold ids_valid. rewrite Htr, Hws. auto.
Qed.

Lemma ids_valid_apply (e : env) (o : io) (sched : list actor) :
  ids_valid e (cp.apply e sched o).
Proof.
  unfold cp.apply.
  assert (H : forall st, inv st -> ids_valid e st -> ids_valid e (run e sched st)).
  { induction sched as [|a sched IH]; intros st I Hv; [exact Hv|].
    rewrite run_cons. apply IH; [now apply inv_step|now apply ids_valid_step]. }
  apply H; [apply inv_init|].
  split; [|split].
  - intros it w Hw Hpc. apply spawn_lookup in Hw. subst w. discriminate.
  - intros it c [].
  - intros it c [].
Qed.

(** X9.  [apply] enters the callback only for chunks that exist and
    could be read, and skips only chunks that exist, wrap-around or not:
    every chunk for which [f] was entered is at least 0 and less than
    [count_chunks], [read_chunk] did not throw for it, and the worker is
    one of the [_nthreads] workers; every skipped chunk is in the same
    range, and chunks are skipped only when the flag is set. *)
Theorem callback_only_for_chunks_read (e : env) (o : io) (sched : list actor) :
  (forall it c, In (Call it c) (trace (cp.apply e sched o)) ->
     (0 <= c < count_chunks e)%Z
     /\ (forall s, chunk_outcome e c <> ReadThrowsString s)
     /\ chunk_outcome e c <> ReadThrowsOther
     /\ (Z.of_nat it < _nthreads e)%Z)
  /\ (forall it c, In (Skip it c) (trace (cp.apply e sched o)) ->
      (0 <= c < count_chunks e)%Z
      /\ (Z.of_nat it < _nthreads e)%Z
      /\ interrupted (cp.apply e sched o) = true).
Proof.
  destruct (ids_valid_apply e o sched) as [_ [Hcall Hskip]].
  assert (Hlen : length (workers (cp.apply e sched o)) = Z.to_nat (_nthreads e)).
  { unfold cp.apply. rewrite run_length_workers. apply spawn_length. }
  rewrite Hlen in *. split.
  - intros it c Hin. destruct (Hcall it c Hin) as [Hr [Hcb Hit]].
    split; [exact Hr|]. split; [|split; [|lia]].
    + intros s Hs. rewrite Hs in Hcb. discriminate.
    + intros Hs. rewrite Hs in Hcb. discriminate.
  - intros it c Hin. destruct (Hskip it c Hin) as [Hr Hit].
    split; [exact Hr|]. split; [lia|].
    apply (inv_skip_flag _ (inv_apply e sched o) it).
    apply has_skip_In. eauto.
Qed.

Lemma callback_only_for_chunks_read_witness :
  (0 <= 3 < count_chunks env_10_3)%Z /\ (Z.of_nat 0 < _nthreads env_10_3)%Z.
Proof.
  destruct (proj1 (callback_only_for_chunks_read env_10_3 io_init
                     (sched_round_robin 10)) 0%nat 3%Z) as [H1 [_ [_ H2]]].
  - vm_compute. tauto.
  - split; [exact H1|exact H2].
Defined.

(** ** The flag [interrupted] *)

Lemma main_steps_cons (a : actor) (sched : list actor) :
  main_steps (a :: sched)
  = ((match a with Main _ => 1 | Worker _ => 0 end) + main_steps sched)%nat.
Proof. unfold main_steps. cbn [List.filter]. now destruct a. Qed.

Lemma worker_step_main (e : env) (it : nat) (st : state) :
  main (worker_step e it st) = main st
  /\ interrupted (worker_step e it st) = interrupted st.
Proof. worker_cases e it st w Hw; auto. Qed.

Lemma main_clock_step (e : env) (a : actor) (k : nat) (st : state) :
  main_clock k st ->
  main_clock (match a with Main _ => S k | Worker _ => k end) (step e a st).
Proof.
  intros [Hm Hi]. destruct a as [it|u]; cbn [step].
  - destruct (worker_step_main e it st) as [H1 H2].
    unfold main_clock. now rewrite H1, H2.
  - unfold main_clock in *. unfold main_step.
    destruct (main st) as [|j| |r] eqn:E.
    + cbn [main set_main interrupted]. split; [lia|].
      intros H. specialize (Hi H). lia.
    + destruct (forallb _ _).
      { cbn [main set_main interrupted]. split; [exact I|].
        intros H. specialize (Hi H). lia. }
      destruct ((interrupt_every <=? j)%Z && (j mod interrupt_every =? 0)%Z
                && u) eqn:Eb.
      * cbn [main interrupted]. split; [exact I|]. intros _.
        apply andb_true_iff in Eb. destruct Eb as [Eb _].
        apply andb_true_iff in Eb. destruct Eb as [Eb _].
        apply Z.leb_le in Eb. change interrupt_every with 20%Z in Eb. lia.
      * cbn [main set_main interrupted]. split; [lia|].
        intros H. specialize (Hi H). lia.
    + destruct (all_exited st); [cbn [main set_main interrupted]|rewrite E];
        (split; [exact I|]); intros H; specialize (Hi H); lia.
    + rewrite E. split; [exact I|]. intros H. specialize (Hi H). lia.
Qed.

Lemma main_clock_run (e : env) (sched : list actor) (k : nat) (st : state) :
  main_clock k st -> main_clock (k + main_steps sched) (run e sched st).
Proof.
  revert k st. induction sched as [|a sched IH]; intros k st H.
  - cbn. now rewrite Nat.add_0_r.
  - rewrite run_cons, main_steps_cons.
    apply (main_clock_step e a) in H. apply IH in H.
    destruct a; [exact H|]. now replace (k + (1 + main_steps sched))%nat
                              with (S k + main_steps sched)%nat by lia.
Qed.

Lemma interrupted_stays (e : env) (sched : list actor) (st : state) :
  interrupted st = true -> interrupted (run e sched st) = true.
Proof.
  revert st. induction sched as [|a sched IH]; intros st H; [exact H|].
  rewrite run_cons. apply IH. destruct a as [it|u]; cbn [step].
  - now rewrite (proj2 (worker_step_main e it st)).
  - now apply main_step_interrupted.
Qed.

(** X10.  The flag [interrupted] is set by the main thread only, not
    before the step that follows round 20 of its loop (the interrupt of
    the user is first looked for after 20 rounds of 100 ms), only when
    [Rcpp::checkUserInterrupt] throws, and it is never cleared: a
    schedule that sets the flag has at least 22 steps of the main
    thread, a schedule in which the check never throws leaves the flag
    unset, and once set the flag stays set however the run goes on. *)
Theorem interrupt_not_before_round_20_and_kept (e : env) (o : io) (sched : list actor) :
  (interrupted (cp.apply e sched o) = true -> (22 <= main_steps sched)%nat)
  /\ ((forall a, In a sched -> a <> Main true) ->
      interrupted (cp.apply e sched o) = false)
  /\ (interrupted (cp.apply e sched o) = true ->
      forall s2, interrupted (run e s2 (cp.apply e sched o)) = true).
Proof.
  split; [|split].
  - assert (H0 : main_clock 0 (init e o)) by (split; [reflexivity|discriminate]).
    apply (main_clock_run e sched) in H0. exact (proj2 H0).
  - unfold cp.apply.
    assert (Hst : interrupted (init e o) = false) by reflexivity.
    revert Hst. generalize (init e o).
    induction sched as [|a sched IH]; intros st Hst Hno; [exact Hst|].
    rewrite run_cons. apply IH.
    + destruct a as [it|u]; cbn [step].
      * now rewrite (proj2 (worker_step_main e it st)).
      * destruct u; [exfalso; apply (Hno (Main true)); [now left|reflexivity]|].
        now rewrite main_false_interrupted.
    + intros a' Ha'. apply Hno. now right.
  - intros H s2. now apply interrupted_stays.
Qed.

Lemma interrupt_not_before_round_20_and_kept_witness :
  interrupted (cp.apply env_early sched_early io_init) = true
  /\ (22 <= main_steps sched_early)%nat.
Proof.
  split; [reflexivity|].
  exact (proj1 (interrupt_not_before_round_20_and_kept env_early io_init sched_early)
               eq_refl).
Defined.

(** ** The end of [apply] *)

Lemma main_step_spawned (e : env) (u : bool) (st : state) :
  main st = Spawned ->
  main_step e u st
  = set_main (Polling 0) (r_stderr_buf.print MainThread "" (out st)) st.
Proof. unfold main_step. now intros ->. Qed.

Lemma main_step_returned (e : env) (u : bool) (st : state) (r : result) :
  main st = Returned r -> main_step e u st = st.
Proof. unfold main_step. now intros ->. Qed.

Lemma returned_step (e : env) (a : actor) (st : state) (r : result) :
  inv st -> main st = Returned r -> step e a st = st.
Proof.
  intros I Hr. destruct (inv_returned _ I r Hr) as [Hex _].
  destruct a as [it|u]; cbn [step].
  - unfold worker_step. destruct (workers st !! it) as [w|] eqn:Hw; [|reflexivity].
    now rewrite (Hex it w Hw).
  - eapply main_step_returned; eauto.
Qed.




Lemma returned_buffer_step (e : env) (a : actor) (st : state) :
  inv st ->
  (forall r, main st = Returned r -> _s (out st) = "") ->
  forall r, main (step e a st) = Returned r -> _s (out (step e a st)) = "".
Proof.
  intros I H r Hr.
  destruct (main st) as [|k| |r0] eqn:Hm.
  - destruct a as [it|u]; cbn [step] in *.
    + rewrite (proj1 (worker_step_main e it st)), Hm in Hr. discriminate.
    + rewrite (main_step_spawned e u st Hm) in Hr. discriminate.
  - destruct a as [it|u]; cbn [step] in *.
    + rewrite (proj1 (worker_step_main e it st)), Hm in Hr. discriminate.
    + unfold main_step in Hr. rewrite Hm in Hr.
      destruct (forallb _ _); [discriminate|]. destruct (_ && _); discriminate.
  - destruct a as [it|u]; cbn [step] in *.
    + rewrite (proj1 (worker_step_main e it st)), Hm in Hr. discriminate.
    + unfold main_step in *. rewrite Hm in *.
      destruct (all_exited st); [|rewrite Hm in Hr; discriminate].
      cbn [out set_main]. now rewrite print_main.
  - rewrite (returned_step e a st r0 I Hm). eauto.
Qed.

(** X12.  When [apply] returns, the buffer of [r_stderr_buf] is empty:
    whatever the workers and the handler they called handed to
    [r_stderr_buf::print] during the run has been put on the console by
    the [print] that follows the [join]. *)
Theorem buffer_empty_at_return (e : env) (o : io) (sched : list actor) (r : result) :
  main (cp.apply e sched o) = Returned r ->
  _s (out (cp.apply e sched o)) = "".
Proof.
  unfold cp.apply.
  assert (H : forall st, inv st ->
                (forall r, main st = Returned r -> _s (out st) = "") ->
                forall r, main (run e sched st) = Returned r ->
                          _s (out (run e sched st)) = "").
  { induction sched as [|a sched IH]; intros st I Hst; [exact Hst|].
    rewrite run_cons. apply IH; [now apply inv_step|].
    now apply returned_buffer_step. }
  apply H; [apply inv_init|]. discriminate.
Qed.

Lemma buffer_empty_at_return_witness :
  main (cp.apply env_boom (replicate 5 (Worker 0) ++ replicate 3 (Main false)) io_init)
  = Returned Normal
  /\ _s (out (cp.apply env_boom
                (replicate 5 (Worker 0) ++ replicate 3 (Main false)) io_init)) = "".
Proof.
  split; [reflexivity|].
  exact (buffer_empty_at_return env_boom io_init
           (replicate 5 (Worker 0) ++ replicate 3 (Main false))%list Normal eq_refl).
Defined.

(** X19.  The main thread leaves its loop only when every [finished]
    flag is set or the interrupt of the user was seen: in a state in
    which it waits in [join], either the flag [interrupted] is set or
    every worker has returned. *)
Theorem loop_left_when_finished_or_interrupted
    (e : env) (o : io) (sched : list actor) :
  main (cp.apply e sched o) = Joining ->
  interrupted (cp.apply e sched o) = true
  \/ (forall it w, workers (cp.apply e sched o) !! it = Some w -> pc w = Exited).
Proof.
  unfold cp.apply.
  assert (H : forall st, inv st ->
    (main st = Joining -> interrupted st = true
       \/ (forall it w, workers st !! it = Some w -> pc w = Exited)) ->
    main (run e sched st) = Joining ->
    interrupted (run e sched st) = true
    \/ (forall it w, workers (run e sched st) !! it = Some w -> pc w = Exited)).
  { induction sched as [|a sched IH]; intros st I Hst; [exact Hst|].
    rewrite run_cons. apply IH; [now apply inv_step|].
    intros Hj. destruct a as [it|u]; cbn [step] in *.
    - destruct (worker_step_main e it st) as [H1 H2]. rewrite H1 in Hj.
      rewrite H2. destruct (Hst Hj) as [Hi|Hex]; [now left|right].
      intros it' w' Hw'.
      destruct (decide (it' = it)) as [->|Hne].
      + unfold worker_step in Hw'.
        destruct (workers st !! it) as [w|] eqn:Hw; [|congruence].
        rewrite (Hex it w Hw), Hw in Hw'. injection Hw' as <-. eauto.
      + rewrite worker_step_others in Hw' by exact Hne. eauto.
    - unfold main_step in *. destruct (main st) as [|k| |r] eqn:Hm.
      + discriminate.
      + destruct (forallb (fun b : bool => b) (finished st)) eqn:Hfin.
        * right. cbn [workers set_main]. intros it w Hw.
          assert (Hlt : (it < length (finished st))%nat).
          { rewrite (inv_len_finished _ I). eapply lookup_lt_Some; eauto. }
          apply lookup_lt_is_Some in Hlt. destruct Hlt as [b Hb].
          rewrite forallb_forall in Hfin.
          assert (b = true).
          { apply Hfin, list_elem_of_In. eapply list_elem_of_lookup_2; eauto. }
          subst b. apply (inv_finished _ I) in Hb.
          destruct Hb as [w' [Hw' Hpc]]. congruence.
        * destruct (_ && _); [now left|discriminate].
      + destruct (all_exited st); [discriminate|]. rewrite Hm in Hj. now apply Hst.
      + rewrite Hm in Hj. discriminate. }
  apply H; [apply inv_init|]. discriminate.
Qed.

Lemma loop_left_when_finished_or_interrupted_witness :
  main (cp.apply env_early sched_early io_init) = Joining
  /\ (interrupted (cp.apply env_early sched_early io_init) = true
      \/ (forall it w, workers (cp.apply env_early sched_early io_init) !! it = Some w ->
                       pc w = Exited)).
Proof.
  split; [reflexivity|].
  exact (loop_left_when_finished_or_interrupted env_early io_init sched_early eq_refl).
Defined.

(** ** Workers and the console *)

Lemma handler_worker_console (line : string) (it : nat) (o : io) :
  let o1 := error_handling_r.put line o in
  console (if negb (_defer o1)
           then error_handling_r.flush_err_stream (WorkerThread it) o1 else o1)
  = console o.
Proof.
  cbn zeta. destruct (negb _); [now rewrite flush_err_stream_worker|reflexivity].
Qed.

(** X13.  With the handler [standard] or [debug] a worker thread never
    writes to the console: no step of a worker changes it, so it stays
    as it is as long as only workers move.  The line for a failed chunk
    waits in the buffer of [r_stderr_buf]; when output is not deferred,
    the next [print] of the main thread, which every round of its loop
    makes, shows it after what waited before. *)
Theorem workers_never_write_console (e : env) (it : nat) (st : state) :
  handler e = error_handling_r.standard \/ handler e = error_handling_r.debug ->
  console (out (worker_step e it st)) = console (out st)
  /\ (forall sched, only_workers sched ->
        console (out (run e sched st)) = console (out st))
  /\ (handler e = error_handling_r.standard ->
      _defer (out st) = false -> _err_stream (out st) = "" ->
      forall w msg,
        workers st !! it = Some w -> pc w = InTry ->
        caught_message (i w) (chunk_outcome e (i w)) = Some msg ->
        console (r_stderr_buf.print MainThread "" (out (worker_step e it st)))
        = console (out st) ++ _s (out st) ++ "[ERROR] " ++ msg ++ endl).
Proof.
  intros Hh.
  assert (Hstep : forall it st, console (out (worker_step e it st)) = console (out st)).
  { clear it st. intros it st. worker_cases e it st w Hw; try reflexivity.
    cbn [out]. destruct (caught_message _ _) as [msg|]; [|reflexivity].
    unfold GCBS_ERROR. destruct Hh as [-> | ->].
    - apply (handler_worker_console _ it (out st)).
    - apply (handler_worker_console _ it (out st)). }
  split; [apply Hstep|]. split.
  - intros sched. revert st. induction sched as [|a sched IH]; intros st Hs;
      [reflexivity|].
    rewrite run_cons.
    destruct (Hs a (or_introl eq_refl)) as [it' ->].
    rewrite IH by (intros a Ha; apply Hs; now right).
    apply Hstep.
  - intros Hstd Hd Herr w msg Hw Hpc Hmsg.
    unfold worker_step. rewrite Hw, Hpc, Hmsg. cbn [out].
    unfold GCBS_ERROR. rewrite Hstd.
    unfold error_handling_r.standard, error_handling_r.put,
      error_handling_r.flush_err_stream, error_handling_r.standard_line.
    cbn [_defer _err_stream _s console]. rewrite Hd, Herr.
    cbn [negb append empty]. rewrite print_worker.
    cbn [_s console _err_stream _defer]. rewrite print_main.
    cbn [console _s]. now rewrite !append_assoc, append_nil_r.
Qed.

Lemma workers_never_write_console_witness :
  console (r_stderr_buf.print MainThread ""
             (out (worker_step env_boom 0 (cp.apply env_boom [Worker 0] io_init))))
  = console (out (cp.apply env_boom [Worker 0] io_init))
    ++ _s (out (cp.apply env_boom [Worker 0] io_init)) ++ "[ERROR] " ++ "boom" ++ endl.
Proof.
  exact (proj2 (proj2 (workers_never_write_console env_boom 0
                         (cp.apply env_boom [Worker 0] io_init) (or_introl eq_refl)))
               eq_refl eq_refl eq_refl {| pc := InTry; i := 0 |} "boom"
               eq_refl eq_refl eq_refl).
Defined.

(** ** The number of threads *)

Lemma no_threads_clock_step (e : env) (a : actor) (k : nat) (st : state) :
  no_threads_clock k st ->
  no_threads_clock (match a with Main _ => S k | Worker _ => k end) (step e a st).
Proof.
  intros [Hw [Hf [Hb [Hi [Ht Hm]]]]]. destruct a as [it|u]; cbn [step].
  - unfold worker_step. rewrite Hw. cbn. repeat split; assumption.
  - unfold no_threads_clock, main_step.
    destruct k as [|[|[|k]]]; rewrite Hm.
    + cbn [set_main workers finished interrupted_bythread interrupted trace main].
      repeat split; assumption.
    + rewrite Hf. cbn [forallb].
      cbn [set_main workers finished interrupted_bythread interrupted trace main].
      repeat split; assumption.
    + unfold all_exited, verdict. rewrite Hw, Hi. cbn [forallb andb].
      cbn [set_main workers finished interrupted_bythread interrupted trace main].
      repeat split; assumption.
    + repeat split; assumption.
Qed.

Lemma no_threads_clock_run (e : env) (sched : list actor) (k : nat) (st : state) :
  no_threads_clock k st ->
  no_threads_clock (k + main_steps sched) (run e sched st).
Proof.
  revert k st. induction sched as [|a sched IH]; intros k st H.
  - cbn. now rewrite Nat.add_0_r.
  - rewrite run_cons, main_steps_cons.
    apply (no_threads_clock_step e a) in H. apply IH in H.
    destruct a; [exact H|]. now replace (k + (1 + main_steps sched))%nat
                              with (S k + main_steps sched)%nat by lia.
Qed.

(** X14.  [gc_set_threads(n)] installs a processor with [n mod 65536]
    threads.  When that is 0, as for 65536, [apply] does no work and
    says nothing: under every schedule the callback is entered for no
    chunk, no chunk is skipped, the flag is not set, and after three
    steps of the main thread [apply] has returned normally. *)
Theorem no_threads_no_work (e : env) (o : io) (n : Z) :
  _nthreads e = gc_set_threads n -> (n mod 2 ^ 16 = 0)%Z ->
  forall sched,
    trace (cp.apply e sched o) = []
    /\ interrupted (cp.apply e sched o) = false
    /\ ((3 <= main_steps sched)%nat -> main (cp.apply e sched o) = Returned Normal).
Proof.
  intros HN Hn sched.
  assert (H0 : no_threads_clock 0 (init e o)).
  { unfold no_threads_clock. cbn [init workers finished interrupted_bythread
                                  interrupted trace main].
    rewrite HN. unfold gc_set_threads. rewrite Hn. cbn. repeat split. }
  apply (no_threads_clock_run e sched) in H0.
  destruct H0 as [_ [_ [_ [Hi [Ht Hm]]]]]. unfold cp.apply.
  split; [exact Ht|]. split; [exact Hi|].
  intros H3. rewrite Hm. cbn [Nat.add].
  destruct (main_steps sched) as [|[|[|k]]]; [lia|lia|lia|reflexivity].
Qed.

Lemma no_threads_no_work_witness :
  main (cp.apply env_no_threads (replicate 3 (Main true)) io_init) = Returned Normal
  /\ trace (cp.apply env_no_threads (replicate 3 (Main true)) io_init) = [].
Proof.
  destruct (no_threads_no_work env_no_threads io_init 65536 eq_refl eq_refl
              (replicate 3 (Main true))) as [H1 [_ H3]].
  split; [apply H3; vm_compute; lia|exact H1].
Defined.

(** ** Runs in which no counter wraps around *)

Lemma StronglySorted_seqZ (m n : Z) : StronglySorted Z.lt (seqZ m n).
Proof.
  destruct (Z_le_gt_dec n 0) as [Hn|Hn]; [rewrite seqZ_nil by lia; constructor|].
  rewrite <- (Z2Nat.id n) by lia. generalize (Z.to_nat n) as k. clear.
  intros k. revert m. induction k as [|k IH]; intros m.
  - rewrite seqZ_nil by lia. constructor.
  - rewrite seqZ_cons by lia.
    replace (Z.pred (Z.of_nat (S k))) with (Z.of_nat k) by lia.
    constructor; [apply IH|].
    apply List.Forall_forall. intros x Hx.
    apply list_elem_of_In, elem_of_seqZ in Hx. lia.
Qed.

Lemma StronglySorted_filter (f : Z -> bool) (l : list Z) :
  StronglySorted Z.lt l -> StronglySorted Z.lt (List.filter f l).
Proof.
  induction 1 as [|x l Hl IH Hx]; simpl; [constructor|].
  destruct (f x); [|exact IH]. constructor; [exact IH|].
  apply List.Forall_forall. intros y Hy. apply filter_In in Hy.
  rewrite List.Forall_forall in Hx. apply Hx. tauto.
Qed.

Lemma StronglySorted_lt_NoDup (l : list Z) : StronglySorted Z.lt l -> NoDup l.
Proof.
  induction 1 as [|x l Hl IH Hx]; constructor; [|exact IH].
  intros Hin. rewrite List.Forall_forall in Hx.
  apply list_elem_of_In in Hin. specialize (Hx x Hin). lia.
Qed.

Lemma calls_single (st : state) :
  (forall it c, In (Call it c) (trace st) -> it = 0%nat) ->
  calls st = calls_of 0 st.
Proof.
  unfold calls, calls_of. intros H. f_equal.
  induction (trace st) as [|ev tr IH]; [reflexivity|].
  assert (IH' := IH (fun it c Hin => H it c (in_cons _ _ _ Hin))).
  destruct ev as [it c|it c]; simpl.
  - rewrite (H it c (in_eq _ _)). simpl. now f_equal.
  - exact IH'.
Qed.

(** Without wrap-around and with the flag not set, when [apply] has
    returned it has returned normally and [f] has been entered, once
    each, for the chunks that could be read. *)
Lemma returned_calls_without_wrap (e : env) (o : io) (s : list actor) (r : result) :
  no_wrap e ->
  interrupted (cp.apply e s o) = false ->
  main (cp.apply e s o) = Returned r ->
  r = Normal
  /\ calls (cp.apply e s o)
     ≡ₚ List.filter (fun c => invokes_callback (chunk_outcome e c))
          (seqZ 0 (count_chunks e)).
Proof.
  intros Hnw Hint Hr.
  pose proof (inv_apply e s o) as I.
  pose proof (inv_no_wrap_apply e Hnw s o) as Inw.
  destruct (ids_valid_apply e o s) as [_ [Hcall _]].
  pose proof Hnw as [HN [HC HW]].
  set (st := cp.apply e s o) in *.
  destruct (inv_returned _ I r Hr) as [Hex ->].
  split; [unfold verdict; now rewrite Hint|].
  apply NoDup_Permutation.
  - apply (nw_nodup _ _ Inw).
  - apply StronglySorted_lt_NoDup, StronglySorted_filter, StronglySorted_seqZ.
  - intros c. rewrite !list_elem_of_In, filter_In.
    rewrite <- (list_elem_of_In (seqZ _ _)), elem_of_seqZ, calls_In. split.
    + intros [it Hin]. destruct (Hcall it c Hin) as [Hc [Hcb _]]. split; [lia|exact Hcb].
    + intros [Hc Hcb].
      pose proof (Z.mod_pos_bound c (_nthreads e) ltac:(lia)) as Hm.
      pose proof (Z.div_mod c (_nthreads e) ltac:(lia)) as Hdm.
      assert (Hle : (c mod _nthreads e <= c)%Z) by (apply Z.mod_le; lia).
      set (it := Z.to_nat (c mod _nthreads e)).
      assert (Hlt : (it < length (workers st))%nat)
        by (rewrite (nw_len _ _ Inw); unfold it; lia).
      apply lookup_lt_is_Some in Hlt. destruct Hlt as [w Hw].
      destruct (nw_counter _ _ Inw it w Hw) as [_ [_ [_ [_ Hexit]]]].
      specialize (Hexit (Hex it w Hw)).
      exists it. eapply (nw_cover _ _ Inw Hint it w c Hw).
      * unfold it. lia.
      * exists (c / _nthreads e)%Z. unfold it. lia.
      * exact Hcb.
Qed.

(** X15.  The loop [for (uint32_t i = it; i < count_chunks(); i +=
    _nthreads)] of worker [k], when no counter wraps around
    ([count_chunks + _nthreads <= 2^32]): it visits chunk [c] exactly
    when [c] is a chunk and [k] is [c mod _nthreads].  So every chunk
    belongs to one worker and what a loop visits is a chunk. *)
Theorem worker_of_chunk_without_wrap (e : env) (k c : Z) :
  no_wrap e -> (0 <= k < _nthreads e)%Z ->
  (in_loop e k c <-> (0 <= c < count_chunks e)%Z /\ k = (c mod _nthreads e)%Z).
Proof.
  intros Hnw Hk. pose proof Hnw as [HN [HC HW]].
  rewrite in_loop_without_wrap by (assumption || lia). split.
  - intros [Hr [q Hq]]. split; [lia|].
    apply (Z.mod_unique_pos c (_nthreads e) q k); lia.
  - intros [Hc ->].
    pose proof (Z.mod_pos_bound c (_nthreads e) ltac:(lia)) as Hm.
    pose proof (Z.div_mod c (_nthreads e) ltac:(lia)) as Hdm.
    assert (Hle : (c mod _nthreads e <= c)%Z) by (apply Z.mod_le; lia).
    split; [lia|]. exists (c / _nthreads e)%Z. lia.
Qed.

Lemma worker_of_chunk_without_wrap_witness :
  in_loop env_10_3 1 7 <-> (0 <= 7 < count_chunks env_10_3)%Z /\ (1 = 7 mod _nthreads env_10_3)%Z.
Proof.
  apply (worker_of_chunk_without_wrap env_10_3 1 7).
  - unfold no_wrap. cbn. lia.
  - cbn. lia.
Defined.

(** X16.  When no counter wraps around, in every state that [apply]
    reaches, interrupted or not, worker [it] has entered [f] for chunks
    of its own only and in strictly increasing order: each is a chunk,
    its remainder modulo [_nthreads] is [it], and no other worker has
    entered [f] for it. *)
Theorem worker_calls_own_chunks_in_order (e : env) (o : io) (sched : list actor)
    (it : nat) :
  no_wrap e ->
  StronglySorted Z.lt (calls_of it (cp.apply e sched o))
  /\ (forall c, In c (calls_of it (cp.apply e sched o)) ->
        (0 <= c < count_chunks e)%Z /\ (c mod _nthreads e)%Z = Z.of_nat it)
  /\ (forall it' c, In c (calls_of it (cp.apply e sched o)) ->
        In c (calls_of it' (cp.apply e sched o)) -> it' = it).
Proof.
  intros Hnw. pose proof Hnw as [HN [HC HW]].
  pose proof (inv_no_wrap_apply e Hnw sched o) as Inw.
  set (st := cp.apply e sched o) in *.
  assert (Hres : forall it c, In c (calls_of it st) ->
            (0 <= c < count_chunks e)%Z /\ (c mod _nthreads e)%Z = Z.of_nat it).
  { intros it0 c Hin. apply calls_of_In in Hin.
    destruct (nw_calls _ _ Inw it0 c Hin) as [w [Hw [Hr [[q Hq] Hc]]]].
    apply lookup_lt_Some in Hw. rewrite (nw_len _ _ Inw) in Hw.
    split; [lia|]. symmetry.
    apply (Z.mod_unique_pos c (_nthreads e) q (Z.of_nat it0)); lia. }
  split; [apply (nw_sorted _ _ Inw)|]. split; [apply Hres|].
  intros it' c H1 H2. apply Hres in H1. apply Hres in H2. lia.
Qed.

Lemma worker_calls_own_chunks_in_order_witness :
  StronglySorted Z.lt (calls_of 1 (cp.apply env_10_3 (sched_round_robin 10) io_init)).
Proof.
  apply (worker_calls_own_chunks_in_order env_10_3 io_init (sched_round_robin 10) 1).
  unfold no_wrap. cbn. lia.
Defined.



(** X18.  With one thread, as [gc_init] installs the processor, and at
    most [2^32 - 1] chunks, [apply] is sequential: when it has returned
    without an interruption, it has returned normally and [f] has been
    entered for the chunks that could be read in the order 0, 1, 2, ...,
    once each; and every such run can be continued until [apply]
    returns. *)
Theorem single_thread_calls_in_order (e : env) (o : io) (s1 : list actor) :
  _nthreads e = 1%Z -> (0 <= count_chunks e < 2 ^ 32)%Z ->
  interrupted (cp.apply e s1 o) = false ->
  (forall r, main (cp.apply e s1 o) = Returned r ->
     r = Normal
     /\ calls (cp.apply e s1 o)
        = List.filter (fun c => invokes_callback (chunk_outcome e c))
            (seqZ 0 (count_chunks e)))
  /\ exists s2,
       main (run e s2 (cp.apply e s1 o)) = Returned Normal
       /\ interrupted (run e s2 (cp.apply e s1 o)) = false.
Proof.
  intros HN HC Hint.
  assert (Hnw : no_wrap e) by (unfold no_wrap; rewrite HN; lia).
  split.
  - intros r Hr.
    destruct (returned_calls_without_wrap e o s1 r Hnw Hint Hr) as [-> Hp].
    split; [reflexivity|].
    pose proof (inv_no_wrap_apply e Hnw s1 o) as Inw.
    assert (H0 : calls (cp.apply e s1 o) = calls_of 0 (cp.apply e s1 o)).
    { apply calls_single. intros it c Hin.
      destruct (nw_calls _ _ Inw it c Hin) as [w [Hw _]].
      apply lookup_lt_Some in Hw. rewrite (nw_len _ _ Inw), HN in Hw.
      change (Z.to_nat 1) with 1%nat in Hw. lia. }
    apply (StronglySorted_unique_strong Z.lt).
    + intros x1 x2 _ _ H1 H2. lia.
    + rewrite H0. apply (nw_sorted _ _ Inw).
    + apply StronglySorted_filter, StronglySorted_seqZ.
    + exact Hp.
  - destruct (apply_can_return e o s1 Hnw) as [s2 [r [Hr Hint2]]].
    exists s2. rewrite Hint in Hint2. split; [|exact Hint2].
    unfold cp.apply in *. rewrite <- run_app in *.
    destruct (returned_calls_without_wrap e o (s1 ++ s2)%list r Hnw Hint2 Hr) as [-> _].
    exact Hr.
Qed.

Lemma single_thread_calls_in_order_witness :
  Normal = Normal
  /\ calls (cp.apply env_single (replicate 8 (Worker 0) ++ replicate 3 (Main false))%list
              io_init)
     = [0; 1; 2]%Z.
Proof.
  apply (proj1 (single_thread_calls_in_order env_single io_init
                  (replicate 8 (Worker 0) ++ replicate 3 (Main false))%list
                  eq_refl ltac:(cbn; lia) eq_refl)).
  reflexivity.
Defined.
